(** * FrameByFrame: scroll-scrubbed image sequence on a canvas

    A shallow embedding of [src/frameByFrame.ts] and the properties of its
    frame selection, cover-fit drawing and image loading policies.

    Conventions of the embedding.
    - A JavaScript [number] that the program only uses as an integer (array
      indices, [imagesPath.length], pixel sizes of images and of the canvas)
      is a [Z]; every other [number] (scroll offsets, the options that are
      fractions, the results of [/]) is a rational [Q].
    - The bounds of the loops of [preloader] and [forwardLoad] are computed
      as the program computes them, in binary64 ([Math.mul], [Math.add] on
      [Math.number], round to nearest, ties to even): there the rounding
      decides which images are fetched.  An option that is a fraction stands
      for the binary64 number nearest to it ([Math.ofQ]), as its literal
      does.  The frame selection, the cover-fit drawing and the number of
      images of a turn of the interval are about the arithmetic the program
      writes down, on exact rationals, not about its rounding.
    - The two caches [loadedImages] and [loadedHighResImages] are JavaScript
      objects used as maps from the index to the image element: [gmap Z _].
    - [/] on [Q] is total and the program's is not: the statements keep to
      positive pitches and sizes, where no divisor is zero.
    - A promise is described by what settles it; its status is read off the
      state of the page (which image elements have fired [load] or [error]).
      Continuations registered with [then] or suspended at an [await] are
      kept in the state as tasks and run by an explicit step, in any order.
    - The window keeps its size; what is drawn does not bear on what is
      loaded. *)

From Stdlib Require Import ZArith QArith Qround Lia List.
From Corelib Require SpecFloat.
From stdpp Require Import gmap strings list pretty.

Open Scope Z_scope.

(** ** Numbers *)

Module Math.

(** [Math.floor] *)
Definition floor (x : Q) : Z := Qfloor x.

(** [Math.round]: the nearest integer, a tie going up. *)
Definition round (x : Q) : Z := Qfloor (x + (1 # 2)).

(** [Math.min] on two integers and on two fractions. *)
Definition min (x y : Z) : Z := Z.min x y.

Definition qmin (x y : Q) : Q := if Qle_bool x y then x else y.

(** [x < y] and [x > y] on fractions. *)
Definition ltb (x y : Q) : bool := negb (Qle_bool y x).

Definition gtb (x y : Q) : bool := ltb y x.

(** A [number] as the program holds it: binary64, with 53 bits of
    precision and the exponent 1024 for the infinities. *)
Abbreviation number := SpecFloat.spec_float.

Definition prec : Z := 53.

Definition emax : Z := 1024.

(** The [number] of an integer, and [/], [*] and [+] on [number]s, each
    rounded to the nearest [number], a tie going to the even one. *)
Definition ofZ (n : Z) : number := SpecFloat.binary_normalize prec emax n 0 false.

Definition div : number -> number -> number := SpecFloat.SFdiv prec emax.

Definition mul : number -> number -> number := SpecFloat.SFmul prec emax.

Definition add : number -> number -> number := SpecFloat.SFadd prec emax.

(** The [number] a fraction stands for: the quotient of its two integers. *)
Definition ofQ (x : Q) : number := div (ofZ (Qnum x)) (ofZ (Zpos (Qden x))).

(** The value of a [number].  An infinity counts as the power of two past
    every finite [number]; [NaN], which no finite option produces, as 0. *)
Definition toQ (x : number) : Q :=
  match x with
  | SpecFloat.S754_finite s m e =>
      let n := if s then Zneg m else Zpos m in
      match e with
      | Zneg k => n # (2 ^ k)
      | _ => inject_Z (n * 2 ^ e)
      end
  | SpecFloat.S754_infinity s => inject_Z (if s then - 2 ^ emax else 2 ^ emax)
  | _ => 0
  end.

End Math.

(** ** Options ([FrameByFrameOption]) *)

Record FrameByFrameOption := {
  imageHighResDir : string;
  imageLowResDir : string;
  imagePrefix : string;
  imageCountFirst : Z;
  imageCountLast : Z;
  imageExtension : string;
  pxPerImg : Q;
  highResLoadDelay : Z;
  preLoadingPercentage : Q;
  forwardLoadingThreshold : Q;
  intervalTimeout : Z;
  intervalLoadPercentage : Q;
  debug : bool
}.

(** The defaults of the private [_options] field. *)
Definition defaultOptions : FrameByFrameOption := {|
  imageHighResDir := "";
  imageLowResDir := "";
  imagePrefix := "";
  imageCountFirst := 0;
  imageCountLast := 9;
  imageExtension := "jpg";
  pxPerImg := 27 # 1;
  highResLoadDelay := 250;
  preLoadingPercentage := 1 # 4;
  forwardLoadingThreshold := 1 # 4;
  intervalTimeout := 500;
  intervalLoadPercentage := 2 # 100;
  debug := false
|}.

(** ** Frame selection ([getRequestedImageIndex]) *)

(** The value of [requestedImageIndex] after its [let], before the [if]. *)
Definition requestedImageIndex_let (scrollTop windowHeight pxPerImg : Q) (length : Z) : Z :=
  let top := (scrollTop + windowHeight)%Q in
  Math.min (length - 1) (Math.floor (top / pxPerImg - windowHeight / pxPerImg)%Q).

Definition getRequestedImageIndex (scrollTop windowHeight pxPerImg : Q) (length : Z) : Z :=
  let requestedImageIndex := requestedImageIndex_let scrollTop windowHeight pxPerImg length in
  (* prevent index from being more than our last image *)
  if requestedImageIndex >=? length - 1 then length - 1 else requestedImageIndex.

(** The resolver as the specification words it: the raw index is clamped on
    both sides. *)
Definition resolver_spec (scrollOffset viewportHeight pitch : Q) (N : Z) : Z :=
  let raw := Qfloor ((scrollOffset + viewportHeight) / pitch - viewportHeight / pitch)%Q in
  Z.min (N - 1) (Z.max 0 raw).

(** The resolver with the viewport terms cancelled. *)
Definition resolver_cancelled (scrollOffset pitch : Q) (N : Z) : Z :=
  Z.min (N - 1) (Qfloor (scrollOffset / pitch)%Q).

(** ** Cover-fit drawing ([drawOnCanvas]) *)

(** The arguments of [canvasCtx.drawImage]: the source rectangle, and the
    destination rectangle. *)
Record DrawImage := {
  sourceX : Q;
  sourceY : Q;
  sourceWidth : Q;
  sourceHeight : Q;
  destX : Q;
  destY : Q;
  destWidth : Q;
  destHeight : Q
}.

(** [img] is [None] for a falsy image: nothing is drawn.  Otherwise it is
    the [width] and [height] of the image. *)
Definition drawOnCanvas (canvasWidth canvasHeight : Z) (img : option (Z * Z)) : option DrawImage :=
  match img with
  | None => None
  | Some (width, height) =>
      let canvasWidth := inject_Z canvasWidth in
      let canvasHeight := inject_Z canvasHeight in
      let offsetX := 1 # 2 in
      let offsetY := 1 # 2 in
      let imageWidth := inject_Z width in
      let imageHeight := inject_Z height in
      let lowestRatio := Math.qmin (canvasWidth / imageWidth) (canvasHeight / imageHeight) in
      let resizedImageWidth := (imageWidth * lowestRatio)%Q in
      let resizedImageHeight := (imageWidth * lowestRatio)%Q in
      let adjustedRatio := 1%Q in
      let adjustedRatio :=
        if Math.ltb (inject_Z (Math.round resizedImageWidth)) canvasWidth
        then (canvasWidth / resizedImageWidth)%Q else adjustedRatio in
      let adjustedRatio :=
        if Math.ltb (inject_Z (Math.round resizedImageHeight)) canvasHeight
        then (canvasHeight / resizedImageHeight)%Q else adjustedRatio in
      let resizedImageWidth := (resizedImageWidth * adjustedRatio)%Q in
      let resizedImageHeight := (resizedImageHeight * adjustedRatio)%Q in
      let sourceWidth := (imageWidth / (resizedImageWidth / canvasWidth))%Q in
      let sourceHeight := (imageHeight / (resizedImageHeight / canvasHeight))%Q in
      let sourceX := ((imageWidth - sourceWidth) * offsetX)%Q in
      let sourceY := ((imageHeight - sourceHeight) * offsetY)%Q in
      let sourceX := if Math.ltb sourceX 0 then 0%Q else sourceX in
      let sourceY := if Math.ltb sourceY 0 then 0%Q else sourceY in
      let sourceWidth := if Math.gtb sourceWidth imageWidth then imageWidth else sourceWidth in
      let sourceHeight := if Math.gtb sourceHeight imageHeight then imageHeight else sourceHeight in
      Some {| sourceX := sourceX; sourceY := sourceY;
              sourceWidth := sourceWidth; sourceHeight := sourceHeight;
              destX := 0; destY := 0;
              destWidth := canvasWidth; destHeight := canvasHeight |}
  end.

(** The source rectangle has the aspect ratio of the destination (written
    without a division). *)
Definition sameAspect (d : DrawImage) : Prop :=
  (sourceWidth d * destHeight d == sourceHeight d * destWidth d)%Q.

(** ** Images, promises and the continuations waiting on them *)

(** [ImageBase]: the node of the element made by [document.createElement],
    its address and its index. *)
Record ImageBase := {
  img : nat;
  src : string;
  index : Z
}.

(** What a promise of an image is made from. *)
Inductive Promise :=
| Resolve (loadedImage : nat)   (* [Promise.resolve(loadedImage)] *)
| Reject                        (* [Promise.reject()] *)
| Load (node : nat).            (* [new Promise]: settled by the [load] or
                                   [error] listener of that element *)

Inductive Status := Pending | Fulfilled | Rejected.

(** Which elements have fired an event: [Some (width, height)] for [load],
    with the intrinsic size, [None] for [error]. *)
Abbreviation Fired := (gmap nat (option (Z * Z))).

Definition status (fired : Fired) (p : Promise) : Status :=
  match p with
  | Resolve _ => Fulfilled
  | Reject => Rejected
  | Load node =>
      match fired !! node with
      | None => Pending
      | Some (Some _) => Fulfilled
      | Some None => Rejected
      end
  end.

(** The image a fulfilled promise carries. *)
Definition value (p : Promise) : option nat :=
  match p with
  | Resolve loadedImage => Some loadedImage
  | Reject => None
  | Load node => Some node
  end.

(** [Promise.all]: rejected once one member is, fulfilled when all are. *)
Fixpoint Promise_all (fired : Fired) (promises : list Promise) : Status :=
  match promises with
  | [] => Fulfilled
  | p :: promises =>
      match status fired p, Promise_all fired promises with
      | Rejected, _ | _, Rejected => Rejected
      | Pending, _ | _, Pending => Pending
      | Fulfilled, Fulfilled => Fulfilled
      end
  end.

(** A callback given to [then], or the rest of an [async] function after an
    [await], with the promise it waits on. *)
Inductive Task :=
| PreloaderThen (promises : list Promise)
    (* constructor: [this.preloader().then(...)] *)
| TheaterThen (p : Promise)
    (* constructor: [this.setTheaterSize(true).then(...)] *)
| ResizeThen (p : Promise)
    (* resize listener: [this.setTheaterSize().then(...)] *)
| HDThen (p : Promise)
    (* scroll listener's timeout: [this.drawOnScreenImage(true).then(...)] *)
| DrawThen (p : Promise) (requestedImageIndex : Z)
    (* drawOnScreenImage: [loadImageOnScreenPromsise.then(...)] *)
| ForwardAwait (chain : list Promise) (requestedImageIndex : Z)
    (* forwardLoad: [await this.forwardLoading] *)
| ForwardThen (chain : list Promise)
    (* forwardLoad: [this.forwardLoading.then(...)] *)
| IntervalAwait (p : Promise) (numberOfImagesToLoad : Z).
    (* setIntervalLoad: [await this.loadImage(...).then(..., ...)] *)

Inductive Error :=
| UnhandledRejection          (* a rejected promise nobody handles *)
| UnableToLoad (index : Z)    (* thrown by the interval's rejection handler *)
| ReduceOfEmptyArray.         (* [reduce] without initial value on [[]] *)

(** What the program does to the outside, and its calls of [loadImage]. *)
Inductive Effect :=
| LoadImage (index : Z) (highRes rejectAlreadyLoaded : bool)
| CanvasDraw (image : nat) (d : option DrawImage)
| FrameUpdated (index : Z)
| Complete
| ResizeCompleted
| Uncaught (e : Error).

(** ** The state: the object, the page and the pending continuations *)

Record FrameByFrame := {
  loadedImages : gmap Z nat;
  loadedHighResImages : gmap Z nat;
  forwardLoading : list Promise;     (* [Promise.all] of these *)
  isFowardLoading : bool;
  latestIntervalLoadedImage : Z;     (* the variable of [setIntervalLoad] *)
  intervalId : bool;                 (* the interval is set *)
  HDTimerId : bool;                  (* the timeout of the scroll listener is set *)
  listening : bool;                  (* the resize and scroll listeners are added *)
  scrollTop : Q;                     (* [document.documentElement.scrollTop] *)
  imgs : list (ImageBase * bool);    (* elements whose [src] is set, with the
                                        tier of the cache their listener fills *)
  tasks : list Task;
  log : list Effect
}.

Definition with_loadedImages v st := {|
  loadedImages := v; loadedHighResImages := loadedHighResImages st;
  forwardLoading := forwardLoading st; isFowardLoading := isFowardLoading st;
  latestIntervalLoadedImage := latestIntervalLoadedImage st; intervalId := intervalId st;
  HDTimerId := HDTimerId st; listening := listening st; scrollTop := scrollTop st;
  imgs := imgs st; tasks := tasks st; log := log st |}.

Definition with_loadedHighResImages v st := {|
  loadedImages := loadedImages st; loadedHighResImages := v;
  forwardLoading := forwardLoading st; isFowardLoading := isFowardLoading st;
  latestIntervalLoadedImage := latestIntervalLoadedImage st; intervalId := intervalId st;
  HDTimerId := HDTimerId st; listening := listening st; scrollTop := scrollTop st;
  imgs := imgs st; tasks := tasks st; log := log st |}.

Definition with_forwardLoading v st := {|
  loadedImages := loadedImages st; loadedHighResImages := loadedHighResImages st;
  forwardLoading := v; isFowardLoading := isFowardLoading st;
  latestIntervalLoadedImage := latestIntervalLoadedImage st; intervalId := intervalId st;
  HDTimerId := HDTimerId st; listening := listening st; scrollTop := scrollTop st;
  imgs := imgs st; tasks := tasks st; log := log st |}.

Definition with_isFowardLoading v st := {|
  loadedImages := loadedImages st; loadedHighResImages := loadedHighResImages st;
  forwardLoading := forwardLoading st; isFowardLoading := v;
  latestIntervalLoadedImage := latestIntervalLoadedImage st; intervalId := intervalId st;
  HDTimerId := HDTimerId st; listening := listening st; scrollTop := scrollTop st;
  imgs := imgs st; tasks := tasks st; log := log st |}.

Definition with_latestIntervalLoadedImage v st := {|
  loadedImages := loadedImages st; loadedHighResImages := loadedHighResImages st;
  forwardLoading := forwardLoading st; isFowardLoading := isFowardLoading st;
  latestIntervalLoadedImage := v; intervalId := intervalId st;
  HDTimerId := HDTimerId st; listening := listening st; scrollTop := scrollTop st;
  imgs := imgs st; tasks := tasks st; log := log st |}.

Definition with_intervalId v st := {|
  loadedImages := loadedImages st; loadedHighResImages := loadedHighResImages st;
  forwardLoading := forwardLoading st; isFowardLoading := isFowardLoading st;
  latestIntervalLoadedImage := latestIntervalLoadedImage st; intervalId := v;
  HDTimerId := HDTimerId st; listening := listening st; scrollTop := scrollTop st;
  imgs := imgs st; tasks := tasks st; log := log st |}.

Definition with_HDTimerId v st := {|
  loadedImages := loadedImages st; loadedHighResImages := loadedHighResImages st;
  forwardLoading := forwardLoading st; isFowardLoading := isFowardLoading st;
  latestIntervalLoadedImage := latestIntervalLoadedImage st; intervalId := intervalId st;
  HDTimerId := v; listening := listening st; scrollTop := scrollTop st;
  imgs := imgs st; tasks := tasks st; log := log st |}.

Definition with_listening v st := {|
  loadedImages := loadedImages st; loadedHighResImages := loadedHighResImages st;
  forwardLoading := forwardLoading st; isFowardLoading := isFowardLoading st;
  latestIntervalLoadedImage := latestIntervalLoadedImage st; intervalId := intervalId st;
  HDTimerId := HDTimerId st; listening := v; scrollTop := scrollTop st;
  imgs := imgs st; tasks := tasks st; log := log st |}.

Definition with_scrollTop v st := {|
  loadedImages := loadedImages st; loadedHighResImages := loadedHighResImages st;
  forwardLoading := forwardLoading st; isFowardLoading := isFowardLoading st;
  latestIntervalLoadedImage := latestIntervalLoadedImage st; intervalId := intervalId st;
  HDTimerId := HDTimerId st; listening := listening st; scrollTop := v;
  imgs := imgs st; tasks := tasks st; log := log st |}.

Definition with_imgs v st := {|
  loadedImages := loadedImages st; loadedHighResImages := loadedHighResImages st;
  forwardLoading := forwardLoading st; isFowardLoading := isFowardLoading st;
  latestIntervalLoadedImage := latestIntervalLoadedImage st; intervalId := intervalId st;
  HDTimerId := HDTimerId st; listening := listening st; scrollTop := scrollTop st;
  imgs := v; tasks := tasks st; log := log st |}.

Definition with_tasks v st := {|
  loadedImages := loadedImages st; loadedHighResImages := loadedHighResImages st;
  forwardLoading := forwardLoading st; isFowardLoading := isFowardLoading st;
  latestIntervalLoadedImage := latestIntervalLoadedImage st; intervalId := intervalId st;
  HDTimerId := HDTimerId st; listening := listening st; scrollTop := scrollTop st;
  imgs := imgs st; tasks := v; log := log st |}.

Definition with_log v st := {|
  loadedImages := loadedImages st; loadedHighResImages := loadedHighResImages st;
  forwardLoading := forwardLoading st; isFowardLoading := isFowardLoading st;
  latestIntervalLoadedImage := latestIntervalLoadedImage st; intervalId := intervalId st;
  HDTimerId := HDTimerId st; listening := listening st; scrollTop := scrollTop st;
  imgs := imgs st; tasks := tasks st; log := v |}.

(** Register a continuation; record an effect. *)
Definition spawn (t : Task) (st : FrameByFrame) : FrameByFrame :=
  with_tasks (tasks st ++ [t]) st.

Definition tell (e : Effect) (st : FrameByFrame) : FrameByFrame :=
  with_log (log st ++ [e]) st.

(** The greatest key of a cache, as
    [Object.keys(...).reduce((a, b) => Number(a) > Number(b) ? a : b)]
    finds it; [None] where [reduce] throws, on no key at all. *)
Definition reduceKeys (m : gmap Z nat) : option Z :=
  match map fst (map_to_list m) with
  | [] => None
  | a :: keys => Some (foldl (fun a b => if a >? b then a else b) a keys)
  end.

(** ** The operations of the class *)

Section Operations.

(** The options after the constructor has merged them, and the window
    ([document.body]'s height, [window.innerWidth] and
    [window.innerHeight]). *)
Variable o : FrameByFrameOption.
Variable windowHeight : Q.
Variables innerWidth innerHeight : Z.

(** [getImagesPath] *)
Definition getImagesPath : list string :=
  map (fun i => imagePrefix o +:+ pretty i)
      (seqZ (imageCountFirst o) (imageCountLast o - imageCountFirst o + 1)).

Definition imagesPath : list string := getImagesPath.

(** [this.imagesPath.length] *)
Definition numberOfImages : Z := Z.of_nat (length imagesPath).

(** [this.imagesPath[index]] inside a template string. *)
Definition imagesPath_at (index : Z) : string :=
  match (if 0 <=? index then imagesPath !! Z.to_nat index else None) with
  | Some path => path
  | None => "undefined"
  end.

(** [createImageBase]; the new element is the next node of the page. *)
Definition createImageBase (index : Z) (highRes : bool) (st : FrameByFrame) : ImageBase :=
  let img := length (imgs st) in
  let imgSrcPath := if highRes then imageHighResDir o else imageLowResDir o in
  {| img := img;
     src := imgSrcPath +:+ imagesPath_at index +:+ "." +:+ imageExtension o;
     index := index |}.

(** [loadImage], up to the promise it returns.  Setting [src] starts the
    transfer: the element joins [imgs]. *)
Definition loadImage (index : Z) (highRes rejectAlreadyLoaded : bool) (st : FrameByFrame)
  : FrameByFrame * Promise :=
  let st := tell (LoadImage index highRes rejectAlreadyLoaded) st in
  let loadedImages := if highRes then loadedHighResImages st else loadedImages st in
  match loadedImages !! index with
  | Some loadedImage =>
      (st, if rejectAlreadyLoaded then Reject else Resolve loadedImage)
  | None =>
      let imgBase := createImageBase index highRes st in
      (with_imgs (imgs st ++ [(imgBase, highRes)]) st, Load (img imgBase))
  end.

(** The [load] listener of element [node]. *)
Definition onload (node : nat) (st : FrameByFrame) : FrameByFrame :=
  match imgs st !! node with
  | Some (imgBase, true) =>
      with_loadedHighResImages (<[index imgBase := img imgBase]> (loadedHighResImages st)) st
  | Some (imgBase, false) =>
      with_loadedImages (<[index imgBase := img imgBase]> (loadedImages st)) st
  | None => st
  end.

(** [for (let i = ...; i < ub; i++) promises.push(this.loadImage(i))],
    the loop of [preloader] and of [forwardLoad]; [fuel] bounds the number
    of turns. *)
Fixpoint loadEach (fuel : nat) (i : Z) (ub : Q) (st : FrameByFrame) (promises : list Promise)
  : FrameByFrame * list Promise :=
  match fuel with
  | O => (st, promises)
  | S fuel =>
      if Math.ltb (inject_Z i) ub then
        let '(st, p) := loadImage i false false st in
        loadEach fuel (i + 1) ub st (promises ++ [p])
      else (st, promises)
  end.

(** As many turns as there are integers from [i] below [ub]. *)
Definition turns (i : Z) (ub : Q) : nat := Z.to_nat (Qceiling ub - i).

(** The integers from [i] below [ub], in increasing order. *)
Definition below (i : Z) (ub : Q) : list Z := seqZ i (Qceiling ub - i).

(** [preloader]; the bound of its loop is the product the program
    computes. *)
Definition preloader (st : FrameByFrame) : FrameByFrame * list Promise :=
  let ub :=
    Math.toQ (Math.mul (Math.ofZ numberOfImages) (Math.ofQ (preLoadingPercentage o))) in
  loadEach (turns 0 ub) 0 ub st [].

(** [getForwardLoadingUpperBound], with the sum and the product the program
    computes. *)
Definition getForwardLoadingUpperBound (requestedImageIndex : Z) : Q :=
  Math.qmin
    (Math.toQ (Math.add (Math.ofZ requestedImageIndex)
                 (Math.mul (Math.ofZ numberOfImages)
                    (Math.ofQ (forwardLoadingThreshold o)))))
    (inject_Z numberOfImages).

(** [forwardLoad] after its [await]. *)
Definition forwardLoad_resume (requestedImageIndex : Z) (st : FrameByFrame) : FrameByFrame :=
  let ub := getForwardLoadingUpperBound requestedImageIndex in
  let '(st, promises) :=
    loadEach (turns (requestedImageIndex + 1) ub) (requestedImageIndex + 1) ub st [] in
  let st := with_forwardLoading promises st in
  let st := with_isFowardLoading true st in
  spawn (ForwardThen promises) st.

(** [forwardLoad] up to its [await], on the chain stored at that time. *)
Definition forwardLoad (requestedImageIndex : Z) (st : FrameByFrame) : FrameByFrame :=
  spawn (ForwardAwait (forwardLoading st) requestedImageIndex) st.

(** [drawOnScreenImage] *)
Definition drawOnScreenImage (highRes : bool) (st : FrameByFrame) : FrameByFrame * Promise :=
  let requestedImageIndex :=
    getRequestedImageIndex (scrollTop st) windowHeight (pxPerImg o) numberOfImages in
  let '(st, loadImageOnScreenPromsise) := loadImage requestedImageIndex highRes false st in
  (spawn (DrawThen loadImageOnScreenPromsise requestedImageIndex) st,
   loadImageOnScreenPromsise).

(** [setTheaterSize]: the canvas takes the size of the window, then the
    frame is drawn again. *)
Definition setTheaterSize (highRes : bool) (st : FrameByFrame) : FrameByFrame * Promise :=
  drawOnScreenImage highRes st.

(** The body of the [while] of the interval callback, from its test to
    its [await]. *)
Definition intervalWhile (numberOfImagesToLoad : Z) (st : FrameByFrame) : FrameByFrame :=
  if (numberOfImagesToLoad >? 0) && (latestIntervalLoadedImage st <? numberOfImages - 1) then
    let st := with_latestIntervalLoadedImage (latestIntervalLoadedImage st + 1) st in
    let '(st, p) := loadImage (latestIntervalLoadedImage st) false true st in
    spawn (IntervalAwait p numberOfImagesToLoad) st
  else st.

(** The callback given to [setInterval]. *)
Definition intervalCallback (st : FrameByFrame) : FrameByFrame :=
  if latestIntervalLoadedImage st =? numberOfImages - 1 then
    with_intervalId false st
  else if negb (isFowardLoading st) then
    let numberOfImagesToLoad :=
      Math.floor (inject_Z numberOfImages * intervalLoadPercentage o)%Q in
    intervalWhile numberOfImagesToLoad st
  else st.

(** [setIntervalLoad]; [None] where it throws. *)
Definition setIntervalLoad (st : FrameByFrame) : option FrameByFrame :=
  match reduceKeys (loadedImages st) with
  | None => None
  | Some latest => Some (with_intervalId true (with_latestIntervalLoadedImage latest st))
  end.

(** The scroll listener. *)
Definition onscroll (st : FrameByFrame) : FrameByFrame :=
  let st := with_HDTimerId true st in
  fst (drawOnScreenImage false st).

(** The timeout set by the scroll listener. *)
Definition onHDTimer (st : FrameByFrame) : FrameByFrame :=
  let st := with_HDTimerId false st in
  let '(st, p) := drawOnScreenImage true st in
  spawn (HDThen p) st.

(** The resize listener. *)
Definition onresize (st : FrameByFrame) : FrameByFrame :=
  let '(st, p) := setTheaterSize false st in
  spawn (ResizeThen p) st.

(** The size of a loaded element. *)
Definition sizeOf (fired : Fired) (image : nat) : option (Z * Z) :=
  match fired !! image with
  | Some size => size
  | None => None
  end.

(** Run a continuation whose promise has settled: [None] while it is
    pending.  A fulfilled promise runs the callback; a rejected one has no
    handler here (but in the interval) and ends as an unhandled
    rejection. *)
Definition run (fired : Fired) (t : Task) (st : FrameByFrame) : option FrameByFrame :=
  match t with
  | PreloaderThen promises =>
      match Promise_all fired promises with
      | Pending => None
      | Rejected => Some (tell (Uncaught UnhandledRejection) st)
      | Fulfilled =>
          let '(st, p) := setTheaterSize true st in
          Some (spawn (TheaterThen p) st)
      end
  | TheaterThen p =>
      match status fired p with
      | Pending => None
      | Rejected => Some (tell (Uncaught UnhandledRejection) st)
      | Fulfilled =>
          let st := with_listening true st in
          match setIntervalLoad st with
          | None => Some (tell (Uncaught ReduceOfEmptyArray) st)
          | Some st => Some (tell Complete st)
          end
      end
  | ResizeThen p =>
      match status fired p with
      | Pending => None
      | Rejected => Some (tell (Uncaught UnhandledRejection) st)
      | Fulfilled => Some (tell ResizeCompleted st)
      end
  | HDThen p =>
      match status fired p with
      | Pending => None
      | Rejected => Some (tell (Uncaught UnhandledRejection) st)
      | Fulfilled => Some st
      end
  | DrawThen p requestedImageIndex =>
      match status fired p, value p with
      | Pending, _ => None
      | Fulfilled, Some image =>
          let st :=
            tell (CanvasDraw image (drawOnCanvas innerWidth innerHeight (sizeOf fired image))) st in
          let st := forwardLoad requestedImageIndex st in
          Some (tell (FrameUpdated requestedImageIndex) st)
      | _, _ => Some (tell (Uncaught UnhandledRejection) st)
      end
  | ForwardAwait chain requestedImageIndex =>
      match Promise_all fired chain with
      | Pending => None
      | Rejected => Some (tell (Uncaught UnhandledRejection) st)
      | Fulfilled => Some (forwardLoad_resume requestedImageIndex st)
      end
  | ForwardThen chain =>
      match Promise_all fired chain with
      | Pending => None
      | Rejected => Some (tell (Uncaught UnhandledRejection) st)
      | Fulfilled => Some (with_isFowardLoading false st)
      end
  | IntervalAwait p numberOfImagesToLoad =>
      match status fired p with
      | Pending => None
      | Rejected => Some (tell (Uncaught (UnableToLoad (latestIntervalLoadedImage st))) st)
      | Fulfilled => Some (intervalWhile (numberOfImagesToLoad - 1) st)
      end
  end.

(** The object as its field initializers leave it, on a page scrolled to
    [scrollTop]. *)
Definition initial (scrollTop : Q) : FrameByFrame := {|
  loadedImages := ∅; loadedHighResImages := ∅;
  forwardLoading := []; isFowardLoading := false;
  latestIntervalLoadedImage := 0; intervalId := false;
  HDTimerId := false; listening := false; scrollTop := scrollTop;
  imgs := []; tasks := []; log := [] |}.

(** The constructor, up to its return. *)
Definition constructor (scrollTop : Q) : FrameByFrame :=
  let '(st, promises) := preloader (initial scrollTop) in
  spawn (PreloaderThen promises) st.

(** ** The event loop *)

Inductive Action :=
| ImageLoad (node : nat) (width height : Z)   (* the element fires [load] *)
| ImageError (node : nat)                     (* the element fires [error] *)
| Continue (i : nat)                          (* the i-th continuation runs *)
| Scroll (scrollTop : Q)                       (* the viewer scrolls the page *)
| Resize                                      (* the resize listener runs *)
| HDTimer                                     (* the scroll listener's timeout fires *)
| Interval.                                   (* the interval fires *)

(** One turn of the event loop; [None] where the action cannot happen. *)
Definition act (a : Action) (s : FrameByFrame * Fired) : option (FrameByFrame * Fired) :=
  let '(st, fired) := s in
  match a with
  | ImageLoad node width height =>
      match imgs st !! node, fired !! node with
      | Some _, None => Some (onload node st, <[node := Some (width, height)]> fired)
      | _, _ => None
      end
  | ImageError node =>
      match imgs st !! node, fired !! node with
      | Some _, None => Some (st, <[node := None]> fired)
      | _, _ => None
      end
  | Continue i =>
      match tasks st !! i with
      | Some t =>
          match run fired t (with_tasks (delete i (tasks st)) st) with
          | Some st => Some (st, fired)
          | None => None
          end
      | None => None
      end
  | Scroll scrollTop =>
      let st := with_scrollTop scrollTop st in
      if listening st then Some (onscroll st, fired) else Some (st, fired)
  | Resize =>
      if listening st then Some (onresize st, fired) else None
  | HDTimer =>
      if HDTimerId st then Some (onHDTimer st, fired) else None
  | Interval =>
      if intervalId st then Some (intervalCallback st, fired) else None
  end.

Fixpoint exec (actions : list Action) (s : FrameByFrame * Fired)
  : option (FrameByFrame * Fired) :=
  match actions with
  | [] => Some s
  | a :: actions =>
      match act a s with
      | Some s => exec actions s
      | None => None
      end
  end.


End Operations.

(** ** Vocabulary of the statements *)

(** The cache of a tier. *)
Definition cache (highRes : bool) (st : FrameByFrame) : gmap Z nat :=
  if highRes then loadedHighResImages st else loadedImages st.

(** [st'] differs from [st] in the elements of the page and in the log
    only. *)
Definition frame (st st' : FrameByFrame) : Prop :=
  loadedImages st' = loadedImages st /\
  loadedHighResImages st' = loadedHighResImages st /\
  forwardLoading st' = forwardLoading st /\
  isFowardLoading st' = isFowardLoading st /\
  latestIntervalLoadedImage st' = latestIntervalLoadedImage st /\
  intervalId st' = intervalId st /\
  HDTimerId st' = HDTimerId st /\
  listening st' = listening st /\
  scrollTop st' = scrollTop st /\
  tasks st' = tasks st.

(** The index and the tier of each transfer. *)
Definition tiers (news : list (ImageBase * bool)) : list (Z * bool) :=
  map (fun e => (index (fst e), snd e)) news.




(** The index, the address and the tier of each transfer. *)
Definition transfers (news : list (ImageBase * bool)) : list (Z * string * bool) :=
  map (fun e => (index (fst e), src (fst e), snd e)) news.

(** The element was given the address of its index in its tier. *)
Definition addressed (o : FrameByFrameOption) (e : ImageBase * bool) : Prop :=
  src (fst e)
  = (if snd e then imageHighResDir o else imageLowResDir o)
    +:+ imagesPath_at o (index (fst e)) +:+ "." +:+ imageExtension o.

(** The indices of [l] that cache [m] does not hold. *)
Definition uncached (m : gmap Z nat) (l : list Z) : list Z :=
  filter (fun j => m !! j = None) l.

(** What the promise [q] that [loadImage] returned for the low tier of [j]
    in [st] is: the cached image, or a transfer of [j] on the page of
    [st']. *)
Definition settles (st st' : FrameByFrame) (j : Z) (q : Promise) : Prop :=
  match loadedImages st !! j with
  | Some h => q = Resolve h
  | None => exists n b, q = Load n /\ imgs st' !! n = Some (b, false) /\ index b = j
  end.

(** Ten frames [ld/f0.jpg] .. [ld/f9.jpg], a quarter preloaded, a quarter
    looked ahead, a fifth per turn of the interval. *)
Definition exampleOptions : FrameByFrameOption := {|
  imageHighResDir := "hd/";
  imageLowResDir := "ld/";
  imagePrefix := "f";
  imageCountFirst := 0;
  imageCountLast := 9;
  imageExtension := "jpg";
  pxPerImg := 27 # 1;
  highResLoadDelay := 250;
  preLoadingPercentage := 1 # 4;
  forwardLoadingThreshold := 1 # 4;
  intervalTimeout := 500;
  intervalLoadPercentage := 2 # 10;
  debug := false
|}.

(** Twenty-five frames [ld/f0.jpg] .. [ld/f24.jpg], 0.28 of them preloaded
    and looked ahead. *)
Definition twentyFiveFrames : FrameByFrameOption := {|
  imageHighResDir := "hd/";
  imageLowResDir := "ld/";
  imagePrefix := "f";
  imageCountFirst := 0;
  imageCountLast := 24;
  imageExtension := "jpg";
  pxPerImg := 27 # 1;
  highResLoadDelay := 250;
  preLoadingPercentage := 28 # 100;
  forwardLoadingThreshold := 28 # 100;
  intervalTimeout := 500;
  intervalLoadPercentage := 2 # 10;
  debug := false
|}.

(** The page of the examples: a window of 800 by 400 on a body 600 high. *)
Definition examplePage (actions : list Action) : option (FrameByFrame * Fired) :=
  exec exampleOptions (600 # 1) 800 400 actions (constructor exampleOptions 0, ∅).







(** ** Vocabulary of the properties of the whole class *)



(** The events that bring the page of [exampleOptions] to Ready: the three
    preloaded frames load, the constructor's callback runs, the high-tier
    image of frame 0 loads and the callbacks of [setTheaterSize] run. *)
Definition readyActions : list Action :=
  [ImageLoad 0 400 300; ImageLoad 1 400 300; ImageLoad 2 400 300; Continue 0;
   ImageLoad 3 1600 1200; Continue 0; Continue 0; Continue 0; Continue 0].

(** The two callbacks of the constructor: the one after the preload and the
    one after [setTheaterSize], which calls [onComplete]. *)
Definition controls (t : Task) : bool :=
  match t with
  | PreloaderThen _ | TheaterThen _ => true
  | _ => false
  end.

Definition isComplete (e : Effect) : bool :=
  match e with
  | Complete => true
  | _ => false
  end.

(** What the methods called after the constructor do to the object: caches
    and listeners untouched, elements created with the next node ids,
    callbacks registered that are not the constructor's, effects that are
    not [onComplete]. *)
Definition extends (st st' : FrameByFrame) : Prop :=
  loadedImages st' = loadedImages st /\
  loadedHighResImages st' = loadedHighResImages st /\
  listening st' = listening st /\
  (exists news, imgs st' = imgs st ++ news /\
     forall k e, news !! k = Some e -> img (fst e) = (length (imgs st) + k)%nat) /\
  (exists ts, tasks st' = tasks st ++ ts /\ forallb (fun t => negb (controls t)) ts = true) /\
  (exists es, log st' = log st ++ es /\ forallb (fun e => negb (isComplete e)) es = true).

(** The part of [extends] on the caches and the elements. *)
Definition grows (st st' : FrameByFrame) : Prop :=
  loadedImages st' = loadedImages st /\
  loadedHighResImages st' = loadedHighResImages st /\
  exists news, imgs st' = imgs st ++ news /\
     forall k e, news !! k = Some e -> img (fst e) = (length (imgs st) + k)%nat.

(** The caches against the elements and their events: only elements of the
    page fire, an element is at the place of its node id, the index of an
    element that has loaded is in the cache of its tier, and what a cache
    holds for an index is a loaded element of that tier and index. *)
Definition sound (s : FrameByFrame * Fired) : Prop :=
  let '(st, fired) := s in
  (forall n, is_Some (fired !! n) -> (n < length (imgs st))%nat) /\
  (forall n e, imgs st !! n = Some e -> img (fst e) = n) /\
  (forall n b hr size, imgs st !! n = Some (b, hr) -> fired !! n = Some (Some size) ->
     is_Some (cache hr st !! index b)) /\
  (forall hr i h, cache hr st !! i = Some h ->
     exists b size, imgs st !! h = Some (b, hr) /\ index b = i /\
                    fired !! h = Some (Some size)).

(** The events of an image element. *)
Definition imageEvent (a : Action) : bool :=
  match a with
  | ImageLoad _ _ _ | ImageError _ => true
  | _ => false
  end.

(** The constructor's callbacks still registered plus the calls of
    [onComplete] made. *)
Definition controlCount (st : FrameByFrame) : nat :=
  (length (List.filter controls (tasks st)) + length (List.filter isComplete (log st)))%nat.

Definition onceInv (st : FrameByFrame) : Prop :=
  (controlCount st <= 1)%nat /\
  (existsb isComplete (log st) = true -> listening st = true).

(** A registered callback of [drawOnScreenImage] waits for an image that is
    loaded, or for an element of the frame to draw. *)
Definition taskOK (st : FrameByFrame) (fired : Fired) (t : Task) : Prop :=
  match t with
  | DrawThen (Resolve h) i =>
      (exists hr, is_Some (cache hr st !! i)) /\ exists size, fired !! h = Some (Some size)
  | DrawThen (Load n) i => exists b hr, imgs st !! n = Some (b, hr) /\ index b = i
  | _ => True
  end.

(** A draw on the canvas is of a loaded image, cropped by [drawOnCanvas];
    [onFrameUpdate] is called with a cached index. *)
Definition effectOK (innerWidth innerHeight : Z) (st : FrameByFrame) (fired : Fired)
    (e : Effect) : Prop :=
  match e with
  | FrameUpdated i => exists hr, is_Some (cache hr st !! i)
  | CanvasDraw h d =>
      exists size, fired !! h = Some (Some size) /\
                   d = drawOnCanvas innerWidth innerHeight (Some size)
  | _ => True
  end.

Definition drawsLoaded (innerWidth innerHeight : Z) (s : FrameByFrame * Fired) : Prop :=
  sound s /\
  Forall (taskOK (fst s) (snd s)) (tasks (fst s)) /\
  Forall (effectOK innerWidth innerHeight (fst s) (snd s)) (log (fst s)).

(* ================================================================== *)
(** * Properties *)

(** ** The sign of a product of [number]s *)












(** ** Frame selection *)

Section Resolver.

Variables vh p : Q.
Hypothesis pitch_pos : (0 < p)%Q.

Lemma viewport_cancels s : ((s + vh) / p - vh / p == s / p)%Q.
Proof.
  field. intros E. rewrite E in pitch_pos. discriminate.
Qed.

Lemma raw_cancels s : Qfloor ((s + vh) / p - vh / p) = Qfloor (s / p).
Proof. apply Qfloor_comp, viewport_cancels. Qed.

Lemma raw_monotone a b :
  (a <= b)%Q -> Qfloor ((a + vh) / p - vh / p) <= Qfloor ((b + vh) / p - vh / p).
Proof.
  intros Hab. rewrite !raw_cancels. apply Qfloor_resp_le.
  unfold Qdiv. apply Qmult_le_compat_r; [exact Hab|].
  apply Qlt_le_weak, Qinv_lt_0_compat, pitch_pos.
Qed.

Lemma raw_nonneg s : (0 <= s)%Q -> 0 <= Qfloor ((s + vh) / p - vh / p).
Proof.
  intros Hs. change 0 with (Qfloor 0). rewrite raw_cancels.
  apply Qfloor_resp_le. unfold Qdiv.
  apply Qmult_le_0_compat; [exact Hs|].
  apply Qlt_le_weak, Qinv_lt_0_compat, pitch_pos.
Qed.

End Resolver.

(** The [if] after the [Math.min] never changes the index. *)
Lemma second_clamp_idle s vh p N :
  getRequestedImageIndex s vh p N = requestedImageIndex_let s vh p N.
Proof.
  unfold getRequestedImageIndex, requestedImageIndex_let, Math.min, Math.floor.
  destruct (Z.geb_spec (Z.min (N - 1) (Qfloor ((s + vh) / p - vh / p))) (N - 1)); lia.
Qed.

Lemma resolver_unfold s vh p N :
  getRequestedImageIndex s vh p N = Z.min (N - 1) (Qfloor ((s + vh) / p - vh / p)).
Proof. rewrite second_clamp_idle. reflexivity. Qed.

(** C2, as the claim states it, fails: at a scroll offset of -30 with a
    viewport of 600, a pitch of 30 and 10 frames the resolver returns -1,
    which is outside [0, 9] and is not the clamped value 0. *)
Lemma resolver_negative_offset :
  getRequestedImageIndex (-30 # 1) (600 # 1) (30 # 1) 10 = -1 /\
  ~ (0 <= getRequestedImageIndex (-30 # 1) (600 # 1) (30 # 1) 10 <= 10 - 1) /\
  getRequestedImageIndex (-30 # 1) (600 # 1) (30 # 1) 10
    <> resolver_spec (-30 # 1) (600 # 1) (30 # 1) 10.
Proof.
  assert (E : getRequestedImageIndex (-30 # 1) (600 # 1) (30 # 1) 10 = -1)
    by (vm_compute; reflexivity).
  rewrite E. repeat split; [lia | vm_compute; discriminate].
Qed.

(** C2, amended: for every pitch > 0 and every N >= 1 the resolver returns
    min(N-1, floor((scrollOffset + viewportHeight)/pitch - viewportHeight/pitch)),
    which is at most N-1 for every scroll offset (also a negative one or one
    beyond the document); for every scroll offset >= 0 it is in [0, N-1] and
    equals min(N-1, max(0, floor(...))). *)
Theorem resolver_range (s vh p : Q) (N : Z) :
  (0 < p)%Q -> 1 <= N ->
  getRequestedImageIndex s vh p N = Z.min (N - 1) (Qfloor ((s + vh) / p - vh / p)) /\
  getRequestedImageIndex s vh p N <= N - 1 /\
  ((0 <= s)%Q ->
   0 <= getRequestedImageIndex s vh p N <= N - 1 /\
   getRequestedImageIndex s vh p N = resolver_spec s vh p N).
Proof.
  intros Hp HN. rewrite resolver_unfold. split; [reflexivity|]. split; [lia|].
  intros Hs. pose proof (raw_nonneg vh p Hp s Hs) as H0.
  unfold resolver_spec. lia.
Qed.

Lemma resolver_range_witness :
  0 <= getRequestedImageIndex (95 # 1) (600 # 1) (30 # 1) 10 <= 10 - 1 /\
  getRequestedImageIndex (95 # 1) (600 # 1) (30 # 1) 10
  = resolver_spec (95 # 1) (600 # 1) (30 # 1) 10.
Proof.
  destruct (resolver_range (95 # 1) (600 # 1) (30 # 1) 10) as (_ & _ & H);
    [reflexivity | lia |].
  apply H. unfold Qle. simpl. lia.
Defined.

(** C9: for a fixed viewport height, pitch > 0 and catalog size, the
    resolved index is non-decreasing in the scroll offset. *)
Theorem resolver_monotone (a b vh p : Q) (N : Z) :
  (0 < p)%Q -> 1 <= N -> (a <= b)%Q ->
  getRequestedImageIndex a vh p N <= getRequestedImageIndex b vh p N.
Proof.
  intros Hp _ Hab. rewrite !resolver_unfold.
  pose proof (raw_monotone vh p Hp a b Hab). lia.
Qed.

Lemma resolver_monotone_witness :
  getRequestedImageIndex (-45 # 1) (600 # 1) (30 # 1) 10
  <= getRequestedImageIndex (95 # 1) (600 # 1) (30 # 1) 10.
Proof.
  apply (resolver_monotone (-45 # 1) (95 # 1) (600 # 1) (30 # 1) 10);
    [reflexivity | lia | unfold Qle; simpl; lia].
Defined.

(** C10: with pitch > 0 the viewport terms cancel, the resolver computes
    min(N-1, floor(scrollOffset / pitch)), and the [if] after the
    [Math.min] leaves the value of the [Math.min] unchanged. *)
Theorem resolver_refines_cancelled (s vh p : Q) (N : Z) :
  (0 < p)%Q ->
  ((s + vh) / p - vh / p == s / p)%Q /\
  getRequestedImageIndex s vh p N = resolver_cancelled s p N /\
  getRequestedImageIndex s vh p N = requestedImageIndex_let s vh p N.
Proof.
  intros Hp. split; [apply viewport_cancels, Hp|]. split.
  - rewrite resolver_unfold, (raw_cancels vh p Hp). reflexivity.
  - apply second_clamp_idle.
Qed.

Lemma resolver_refines_cancelled_witness :
  getRequestedImageIndex (95 # 1) (600 # 1) (30 # 1) 10 = resolver_cancelled (95 # 1) (30 # 1) 10.
Proof.
  destruct (resolver_refines_cancelled (95 # 1) (600 # 1) (30 # 1) 10) as (_ & H & _);
    [reflexivity | exact H].
Defined.

(** ** Cover-fit drawing *)

(** C3: a 400x300 image on an 800x400 canvas.  The program computes the
    resized height from the image width, so it takes the source rectangle
    (0, 75, 400, 150): the crop is along the height only and the
    destination is the whole canvas, but the source is 8:3 where the canvas
    is 2:1, so the frame is drawn stretched. *)
Theorem drawOnCanvas_400x300_on_800x400 :
  exists d, drawOnCanvas 800 400 (Some (400, 300)) = Some d /\
    (sourceX d == 0)%Q /\ (sourceY d == 75 # 1)%Q /\
    (sourceWidth d == 400 # 1)%Q /\ (sourceHeight d == 150 # 1)%Q /\
    (destWidth d == 800 # 1)%Q /\ (destHeight d == 400 # 1)%Q /\
    ~ sameAspect d.
Proof.
  eexists. split; [reflexivity|]. unfold sameAspect. cbn -[Qeq].
  repeat split; try (vm_compute; reflexivity).
  intros E. vm_compute in E. discriminate.
Qed.

(** ** Loading *)

Section Loading.

Variable o : FrameByFrameOption.

Lemma frame_refl st : frame st st.
Proof. repeat split. Qed.

Lemma frame_trans st1 st2 st3 : frame st1 st2 -> frame st2 st3 -> frame st1 st3.
Proof. unfold frame. intuition congruence. Qed.

Lemma loadImage_cached index highRes rj st h :
  cache highRes st !! index = Some h ->
  loadImage o index highRes rj st
  = (tell (LoadImage index highRes rj) st, if rj then Reject else Resolve h).
Proof.
  unfold loadImage, cache. intros H. destruct highRes; cbn in *; rewrite H; reflexivity.
Qed.

Lemma loadImage_uncached index highRes rj st :
  cache highRes st !! index = None ->
  loadImage o index highRes rj st
  = (with_imgs (imgs st ++ [(createImageBase o index highRes st, highRes)])
       (tell (LoadImage index highRes rj) st),
     Load (length (imgs st))).
Proof.
  unfold loadImage, cache. intros H. destruct highRes; cbn in *; rewrite H; reflexivity.
Qed.

Lemma loadImage_frame index highRes rj st : frame st (fst (loadImage o index highRes rj st)).
Proof.
  destruct (cache highRes st !! index) as [h|] eqn:E.
  - rewrite (loadImage_cached _ _ _ _ _ E). repeat split.
  - rewrite (loadImage_uncached _ _ _ _ E). repeat split.
Qed.

Lemma loadImage_log index highRes rj st :
  log (fst (loadImage o index highRes rj st)) = log st ++ [LoadImage index highRes rj].
Proof.
  destruct (cache highRes st !! index) as [h|] eqn:E.
  - rewrite (loadImage_cached _ _ _ _ _ E). reflexivity.
  - rewrite (loadImage_uncached _ _ _ _ E). reflexivity.
Qed.

Lemma loadEach_spec fuel : forall i ub st ps,
  (forall k, 0 <= k < Z.of_nat fuel -> Math.ltb (inject_Z (i + k)) ub = true) ->
  exists st' news qs,
    loadEach o fuel i ub st ps = (st', ps ++ qs) /\
    frame st st' /\
    log st' = log st ++ map (fun j => LoadImage j false false) (seqZ i (Z.of_nat fuel)) /\
    imgs st' = imgs st ++ news /\
    tiers news = map (fun j => (j, false)) (uncached (loadedImages st) (seqZ i (Z.of_nat fuel))) /\
    Forall2 (settles st st') (seqZ i (Z.of_nat fuel)) qs.
Proof.
  induction fuel as [|fuel IH]; intros i ub st ps Htest.
  - exists st, [], []. cbn. rewrite !app_nil_r.
    repeat split; auto using frame_refl.
  - assert (Ht : Math.ltb (inject_Z i) ub = true).
    { specialize (Htest 0). rewrite Z.add_0_r in Htest. apply Htest. lia. }
    cbn [loadEach]. rewrite Ht.
    assert (Hseq : seqZ i (Z.of_nat (S fuel)) = i :: seqZ (i + 1) (Z.of_nat fuel)).
    { rewrite seqZ_cons by lia. f_equal. f_equal; lia. }
    rewrite Hseq.
    destruct (loadImage o i false false st) as [st1 p] eqn:E1.
    pose proof (loadImage_frame i false false st) as F1.
    pose proof (loadImage_log i false false st) as L1.
    rewrite E1 in F1, L1. cbn [fst] in F1, L1.
    destruct (IH (i + 1) ub st1 (ps ++ [p])) as (st' & news & qs & E & F & L & I & T & HS).
    { intros k Hk. replace (i + 1 + k) with (i + (k + 1)) by lia. apply Htest. lia. }
    assert (C1 : loadedImages st1 = loadedImages st) by apply F1.
    destruct (loadedImages st !! i) as [h|] eqn:Ec.
    + rewrite (loadImage_cached i false false st h Ec) in E1.
      injection E1 as <- <-.
      exists st', news, (Resolve h :: qs). rewrite E, <- app_assoc.
      split; [reflexivity|]. split; [exact (frame_trans _ _ _ F1 F)|].
      split; [rewrite L, L1, <- app_assoc; reflexivity|].
      split; [exact I|].
      split.
      { rewrite T. unfold uncached. rewrite filter_cons_False by (rewrite Ec; discriminate).
        reflexivity. }
      constructor.
      * unfold settles. rewrite Ec. reflexivity.
      * eapply Forall2_impl; [exact HS|]. intros j q. unfold settles. cbn. auto.
    + rewrite (loadImage_uncached i false false st Ec) in E1.
      injection E1 as <- <-.
      exists st', ((createImageBase o i false st, false) :: news), (Load (length (imgs st)) :: qs).
      rewrite E, <- app_assoc.
      split; [reflexivity|]. split; [exact (frame_trans _ _ _ F1 F)|].
      split; [rewrite L, L1, <- app_assoc; reflexivity|].
      split; [rewrite I; cbn; rewrite <- app_assoc; reflexivity|].
      split.
      { unfold uncached in *. rewrite filter_cons_True by exact Ec.
        cbn. f_equal. exact T. }
      constructor.
      * unfold settles. rewrite Ec.
        exists (length (imgs st)), (createImageBase o i false st).
        split; [reflexivity|]. split; [|reflexivity].
        rewrite I. cbn. rewrite <- app_assoc. rewrite lookup_app_r by lia.
        rewrite Nat.sub_diag. reflexivity.
      * eapply Forall2_impl; [exact HS|]. intros j q. unfold settles. cbn. auto.
Qed.

End Loading.

Lemma numberOfImages_count o :
  numberOfImages o = Z.max 0 (imageCountLast o - imageCountFirst o + 1).
Proof.
  unfold numberOfImages, imagesPath, getImagesPath.
  rewrite length_map, length_seqZ. lia.
Qed.

Lemma imagesPath_lookup o (k : nat) :
  Z.of_nat k < numberOfImages o ->
  imagesPath o !! k = Some (imagePrefix o +:+ pretty (imageCountFirst o + Z.of_nat k)).
Proof.
  intros Hk. rewrite numberOfImages_count in Hk.
  unfold imagesPath, getImagesPath.
  change (map ?f ?l) with (f <$> l).
  rewrite list_lookup_fmap, lookup_seqZ_lt by lia. reflexivity.
Qed.

Lemma imagesPath_at_inside o (k : Z) :
  0 <= k < numberOfImages o ->
  imagesPath_at o k = imagePrefix o +:+ pretty (imageCountFirst o + k).
Proof.
  intros Hk. unfold imagesPath_at.
  destruct (Z.leb_spec 0 k) as [_|E]; [|lia].
  rewrite imagesPath_lookup by lia. rewrite Z2Nat.id by lia. reflexivity.
Qed.

Lemma imagesPath_at_outside o (k : Z) :
  k < 0 \/ numberOfImages o <= k -> imagesPath_at o k = "undefined".
Proof.
  intros Hk. unfold imagesPath_at.
  destruct (Z.leb_spec 0 k) as [H0|_]; [|reflexivity].
  rewrite (lookup_ge_None_2 (imagesPath o)); [reflexivity|].
  unfold numberOfImages in Hk. lia.
Qed.

Lemma ltb_lt x y : Math.ltb x y = true <-> (x < y)%Q.
Proof.
  unfold Math.ltb. rewrite negb_true_iff, <- not_true_iff_false, Qle_bool_iff.
  split; [apply Qnot_le_lt | apply Qlt_not_le].
Qed.

Lemma ltb_ge x y : Math.ltb x y = false <-> (y <= x)%Q.
Proof.
  unfold Math.ltb. rewrite negb_false_iff. apply Qle_bool_iff.
Qed.

Lemma below_ceiling (j : Z) (ub : Q) : j < Qceiling ub <-> (inject_Z j < ub)%Q.
Proof.
  split; intros H.
  - apply Qle_lt_trans with (inject_Z (Qceiling ub - 1)); [|apply Qceiling_lt].
    rewrite <- Zle_Qle. lia.
  - rewrite Zlt_Qlt. apply Qlt_le_trans with ub; [exact H | apply Qle_ceiling].
Qed.

Lemma elem_of_below i ub j : j ∈ below i ub <-> i <= j /\ (inject_Z j < ub)%Q.
Proof.
  unfold below. rewrite elem_of_seqZ, <- below_ceiling. lia.
Qed.

Lemma below_turns i ub : seqZ i (Z.of_nat (turns i ub)) = below i ub.
Proof.
  unfold below, turns, seqZ. rewrite Nat2Z.id. reflexivity.
Qed.

Lemma turns_test i ub k :
  0 <= k < Z.of_nat (turns i ub) -> Math.ltb (inject_Z (i + k)) ub = true.
Proof.
  unfold turns. intros H. apply ltb_lt, below_ceiling. lia.
Qed.

(** After its turns the loop has stopped on its own test. *)
Lemma turns_exit i ub :
  Math.ltb (inject_Z (i + Z.of_nat (turns i ub))) ub = false.
Proof.
  apply not_true_iff_false. rewrite ltb_lt, <- below_ceiling. unfold turns. lia.
Qed.

Lemma loadEach_stop o fuel i ub st ps :
  Math.ltb (inject_Z i) ub = false -> loadEach o fuel i ub st ps = (st, ps).
Proof. intros H. destruct fuel; cbn; [|rewrite H]; reflexivity. Qed.

(** More turns than [turns] allows change nothing. *)
Lemma loadEach_fuel o more : forall fuel i ub st ps,
  Math.ltb (inject_Z (i + Z.of_nat fuel)) ub = false ->
  loadEach o (fuel + more) i ub st ps = loadEach o fuel i ub st ps.
Proof.
  induction fuel as [|fuel IH]; intros i ub st ps H.
  - cbn in *. rewrite Z.add_0_r in H. apply loadEach_stop, H.
  - cbn [loadEach Nat.add]. destruct (Math.ltb (inject_Z i) ub); [|reflexivity].
    destruct (loadImage o i false false st) as [st1 p].
    apply IH. rewrite <- H. f_equal. f_equal. lia.
Qed.

Lemma preloader_fuel o more st :
  let ub :=
    Math.toQ (Math.mul (Math.ofZ (numberOfImages o)) (Math.ofQ (preLoadingPercentage o))) in
  loadEach o (turns 0 ub + more) 0 ub st [] = preloader o st.
Proof. intros ub. apply loadEach_fuel, turns_exit. Qed.

Lemma forwardLoad_fuel o more requestedImageIndex st :
  let ub := getForwardLoadingUpperBound o requestedImageIndex in
  loadEach o (turns (requestedImageIndex + 1) ub + more) (requestedImageIndex + 1) ub st []
  = loadEach o (turns (requestedImageIndex + 1) ub) (requestedImageIndex + 1) ub st [].
Proof. intros ub. apply loadEach_fuel, turns_exit. Qed.

Lemma qmin_le_r x y : (Math.qmin x y <= y)%Q.
Proof.
  unfold Math.qmin. destruct (Qle_bool x y) eqn:E.
  - apply Qle_bool_iff, E.
  - apply Qle_refl.
Qed.

Lemma uncached_empty l : uncached ∅ l = l.
Proof.
  unfold uncached. induction l as [|j l IH]; [reflexivity|].
  rewrite filter_cons_True by apply lookup_empty. f_equal. exact IH.
Qed.

(** Every element [loadImage] makes is given the address of its index in
    its tier. *)
Lemma loadImage_news o index highRes rj st :
  exists news, imgs (fst (loadImage o index highRes rj st)) = imgs st ++ news /\
               Forall (addressed o) news.
Proof.
  destruct (cache highRes st !! index) as [h|] eqn:E.
  - rewrite (loadImage_cached o _ _ _ _ _ E). exists []. cbn. rewrite app_nil_r. auto.
  - rewrite (loadImage_uncached o _ _ _ _ E). eexists. split; [reflexivity|].
    constructor; [|constructor]. unfold addressed. cbn. destruct highRes; reflexivity.
Qed.

Lemma loadEach_news o fuel : forall i ub st ps,
  exists news, imgs (fst (loadEach o fuel i ub st ps)) = imgs st ++ news /\
               Forall (addressed o) news.
Proof.
  induction fuel as [|fuel IH]; intros i ub st ps; cbn [loadEach].
  - exists []. cbn. rewrite app_nil_r. auto.
  - destruct (Math.ltb (inject_Z i) ub).
    + destruct (loadImage_news o i false false st) as (n1 & I1 & A1).
      destruct (loadImage o i false false st) as [st1 p]. cbn [fst] in I1.
      destruct (IH (i + 1) ub st1 (ps ++ [p])) as (n2 & I2 & A2).
      exists (n1 ++ n2). rewrite I2, I1, app_assoc. split; [reflexivity|].
      apply Forall_app. auto.
    + exists []. cbn. rewrite app_nil_r. auto.
Qed.

(** The transfers of elements of the low tier, from their indices. *)
Lemma transfers_addressed o news : forall l,
  tiers news = map (fun j => (j, false)) l ->
  Forall (addressed o) news ->
  transfers news
  = map (fun j => (j, imageLowResDir o +:+ imagesPath_at o j +:+ "." +:+ imageExtension o, false)) l.
Proof.
  unfold transfers.
  induction news as [|[b hr] news IH]; intros [|j l] T A; try discriminate; [reflexivity|].
  cbn in T. injection T as Hj Hhr T. apply Forall_cons in A. destruct A as [Ab A].
  cbn. rewrite (IH l T A). unfold addressed in Ab. cbn in Ab. subst. rewrite Ab. reflexivity.
Qed.

(** C8, amended: the startup preload calls [loadImage] for the low tier of
    exactly the indices i >= 0 with i < N * preloadFraction, the product
    being the one the program computes in binary64, in one go: on the fresh
    page each call starts the transfer of the address of i in the low tier
    (the low directory, the prefix, the number of the frame, a dot and the
    extension, for i in the catalogue) and every promise is still pending
    when [preloader] returns.  For N = 10 and preloadFraction = 0.25 these
    are the transfers of 0, 1 and 2, and once they have loaded the low cache
    holds exactly 0, 1 and 2. *)
Theorem preloader_fetches (o : FrameByFrameOption) (scrollTop : Q) :
  let ub :=
    Math.toQ (Math.mul (Math.ofZ (numberOfImages o)) (Math.ofQ (preLoadingPercentage o))) in
  (forall i, i ∈ below 0 ub <-> 0 <= i /\ (inject_Z i < ub)%Q) /\
  (exists st promises,
     preloader o (initial scrollTop) = (st, promises) /\
     log st = map (fun i => LoadImage i false false) (below 0 ub) /\
     transfers (imgs st)
     = map (fun i => (i, imageLowResDir o +:+ imagesPath_at o i +:+ "." +:+ imageExtension o,
                      false))
           (below 0 ub) /\
     length promises = length (below 0 ub) /\
     Forall (fun p => status ∅ p = Pending) promises) /\
  (forall i, 0 <= i < numberOfImages o ->
     imagesPath_at o i = imagePrefix o +:+ pretty (imageCountFirst o + i)) /\
  transfers (imgs (fst (preloader defaultOptions (initial scrollTop))))
    = [(0, "0.jpg", false); (1, "1.jpg", false); (2, "2.jpg", false)] /\
  (exists s, examplePage [ImageLoad 0 400 300; ImageLoad 1 400 300; ImageLoad 2 400 300] = Some s /\
     transfers (imgs (fst s))
     = [(0, "ld/f0.jpg", false); (1, "ld/f1.jpg", false); (2, "ld/f2.jpg", false)] /\
     dom (loadedImages (fst s)) = {[0; 1; 2]}).
Proof.
  intros ub. split; [intros i; apply elem_of_below|]. split.
  - unfold preloader. fold ub.
    destruct (loadEach_spec o (turns 0 ub) 0 ub (initial scrollTop) [])
      as (st & news & qs & E & F & L & I & T & HS).
    { intros k Hk. apply turns_test, Hk. }
    destruct (loadEach_news o (turns 0 ub) 0 ub (initial scrollTop) []) as (news' & I' & A).
    rewrite E in I'. cbn [fst] in I'. rewrite I in I'. apply app_inv_head in I'. subst news'.
    rewrite below_turns in L, T, HS. cbn in E, L, I, T.
    exists st, qs. split; [exact E|]. split; [exact L|].
    split.
    { rewrite I. rewrite uncached_empty in T. apply transfers_addressed; assumption. }
    split; [symmetry; eapply Forall2_length; eassumption|].
    clear -HS. induction HS as [|j q l qs Hq _ IH]; constructor; [|exact IH].
    unfold settles in Hq. cbn in Hq. rewrite lookup_empty in Hq.
    destruct Hq as (n & b & -> & _). reflexivity.
  - clear ub. split; [apply imagesPath_at_inside|].
    split; [vm_compute; reflexivity|]. eexists. split; [vm_compute; reflexivity|].
    split; vm_compute; reflexivity.
Qed.

(** C8, as the claim states it, fails.  With twenty-five frames and
    preloadFraction = 0.28 the product N * preloadFraction is 7, so that the
    claim's set is 0 .. 6; the program computes 7.000000000000001, and the
    preload fetches frame 7 as well. *)
Lemma preload_rounds_up :
  numberOfImages twentyFiveFrames = 25 /\
  (inject_Z (numberOfImages twentyFiveFrames) * preLoadingPercentage twentyFiveFrames == 7)%Q /\
  ~ (inject_Z 7 < inject_Z (numberOfImages twentyFiveFrames)
                  * preLoadingPercentage twentyFiveFrames)%Q /\
  (Math.toQ (Math.mul (Math.ofZ (numberOfImages twentyFiveFrames))
               (Math.ofQ (preLoadingPercentage twentyFiveFrames)))
   == 7881299347898369 # 1125899906842624)%Q /\
  transfers (imgs (fst (preloader twentyFiveFrames (initial 0))))
  = [(0, "ld/f0.jpg", false); (1, "ld/f1.jpg", false); (2, "ld/f2.jpg", false);
     (3, "ld/f3.jpg", false); (4, "ld/f4.jpg", false); (5, "ld/f5.jpg", false);
     (6, "ld/f6.jpg", false); (7, "ld/f7.jpg", false)].
Proof.
  split; [vm_compute; reflexivity|]. split; [vm_compute; reflexivity|].
  split; [vm_compute; intros H; discriminate|].
  split; vm_compute; reflexivity.
Qed.

Lemma preloader_fetches_witness :
  imagesPath_at exampleOptions 7 = "f7".
Proof.
  assert (EN : numberOfImages exampleOptions = 10) by (vm_compute; reflexivity).
  destruct (preloader_fetches exampleOptions 0) as (_ & _ & H & _).
  rewrite H; [reflexivity | lia].
Defined.

(** What a forward look-ahead pass does once the chain it awaits is
    fulfilled: it calls [loadImage] for the low tier of exactly the indices
    i with index+1 <= i < ub, where ub = min(index + N * forwardFraction, N)
    as the program computes it, in increasing order, and starts the transfer
    of the address of i in the low tier for those of them the low cache
    does not hold.  At the last index N-1 there is no such i. *)
Lemma forward_pass_fetches (o : FrameByFrameOption) (windowHeight : Q) (innerWidth innerHeight : Z)
    (fired : Fired) (chain : list Promise) (requestedImageIndex : Z) (st : FrameByFrame) :
  Promise_all fired chain = Fulfilled ->
  let ub := getForwardLoadingUpperBound o requestedImageIndex in
  (forall i, i ∈ below (requestedImageIndex + 1) ub
             <-> requestedImageIndex + 1 <= i /\ (inject_Z i < ub)%Q) /\
  (exists st' news,
     run o windowHeight innerWidth innerHeight fired
         (ForwardAwait chain requestedImageIndex) st = Some st' /\
     log st' = log st ++ map (fun i => LoadImage i false false) (below (requestedImageIndex + 1) ub) /\
     imgs st' = imgs st ++ news /\
     transfers news
     = map (fun i => (i, imageLowResDir o +:+ imagesPath_at o i +:+ "." +:+ imageExtension o,
                      false))
           (uncached (loadedImages st) (below (requestedImageIndex + 1) ub))) /\
  (requestedImageIndex = numberOfImages o - 1 -> below (requestedImageIndex + 1) ub = []).
Proof.
  intros Hchain ub. split; [intros i; apply elem_of_below|]. split.
  - cbn [run]. rewrite Hchain. unfold forwardLoad_resume. fold ub.
    destruct (loadEach_spec o (turns (requestedImageIndex + 1) ub) (requestedImageIndex + 1) ub st [])
      as (st' & news & qs & E & F & L & I & T & _).
    { intros k Hk. apply turns_test, Hk. }
    destruct (loadEach_news o (turns (requestedImageIndex + 1) ub) (requestedImageIndex + 1) ub st [])
      as (news' & I' & A).
    rewrite E in I'. cbn [fst] in I'. rewrite I in I'. apply app_inv_head in I'. subst news'.
    rewrite below_turns in L, T. rewrite E. cbn in *.
    eexists _, news. split; [reflexivity|]. cbn. split; [exact L|]. split; [exact I|].
    apply transfers_addressed; assumption.
  - intros ->. destruct (below _ ub) as [|j l] eqn:E; [reflexivity|].
    assert (Hj : j ∈ below (numberOfImages o - 1 + 1) ub) by (rewrite E; left).
    apply elem_of_below in Hj. destruct Hj as [Hlo Hhi].
    pose proof (Qlt_le_trans _ _ _ Hhi (qmin_le_r _ _)) as Hlt.
    rewrite <- Zlt_Qlt in Hlt. lia.
Qed.

(** The bound of the look-ahead is rounded as the bound of the preload is:
    with twenty-five frames and forwardFraction = 0.28 the pass for index 0
    goes up to frame 7, where 0 + N * forwardFraction is 7. *)
Lemma forward_bound_rounds_up :
  below (0 + 1) (getForwardLoadingUpperBound twentyFiveFrames 0) = [1; 2; 3; 4; 5; 6; 7] /\
  (inject_Z 0 + inject_Z (numberOfImages twentyFiveFrames)
                * forwardLoadingThreshold twentyFiveFrames == 7)%Q.
Proof. split; vm_compute; reflexivity. Qed.

Lemma onload_cache (st : FrameByFrame) (b : ImageBase) (highRes : bool) :
  imgs st !! img b = Some (b, highRes) ->
  cache highRes (onload (img b) st) !! index b = Some (img b).
Proof.
  intros H. unfold onload. rewrite H.
  destruct highRes; cbn; apply lookup_insert_eq.
Qed.

(** C1, as the claim states it, fails.  With ten frames and the page ready,
    two scrolls to frame 5 before its image has loaded set the [src] of two
    elements to [ld/f5.jpg]: two transfers.  The first then fails and the
    second loads: the first caller's promise is rejected, the second one's is
    fulfilled. *)
Lemma two_fetches_of_one_frame :
  exists st fired p1 p2,
    examplePage [ImageLoad 0 400 300; ImageLoad 1 400 300; ImageLoad 2 400 300; Continue 0;
                 ImageLoad 3 1600 1200; Continue 0; Continue 0; Continue 0; Continue 0;
                 Scroll (135 # 1); Scroll (136 # 1); ImageError 4; ImageLoad 5 400 300]
      = Some (st, fired) /\
    map (fun e => src (fst e)) (imgs st)
      = ["ld/f0.jpg"; "ld/f1.jpg"; "ld/f2.jpg"; "hd/f0.jpg"; "ld/f5.jpg"; "ld/f5.jpg"] /\
    tasks st = [DrawThen p1 5; DrawThen p2 5] /\
    status fired p1 = Rejected /\ status fired p2 = Fulfilled.
Proof.
  eexists _, _, _, _. split; [vm_compute; reflexivity|].
  repeat split; vm_compute; reflexivity.
Qed.

(** C1, amended: a fetch of a (tier, index) that the cache of the tier does
    not hold starts a transfer of its own, also while an earlier transfer of
    the same (tier, index) is unresolved: two such calls set the same address
    on two elements, each caller's promise is settled by its own element, and
    one may fail where the other loads.  Only once an element has loaded is
    its index in the cache, and a fetch of a cached index starts no transfer
    and resolves with the cached image (or is rejected, if the caller asked
    for that). *)
Theorem loadImage_no_single_flight (o : FrameByFrameOption) (idx : Z) (highRes r1 r2 : bool)
    (st : FrameByFrame) :
  (cache highRes st !! idx = None ->
   exists b1 b2 st1 st2,
     loadImage o idx highRes r1 st = (st1, Load (img b1)) /\
     loadImage o idx highRes r2 st1 = (st2, Load (img b2)) /\
     imgs st2 = imgs st ++ [(b1, highRes); (b2, highRes)] /\
     img b1 <> img b2 /\ src b1 = src b2 /\
     index b1 = idx /\ index b2 = idx /\
     (exists fired, status fired (Load (img b1)) = Rejected /\
                    status fired (Load (img b2)) = Fulfilled) /\
     cache highRes (onload (img b1) st2) !! idx = Some (img b1)) /\
  (forall h, cache highRes st !! idx = Some h ->
     exists st1,
       loadImage o idx highRes r1 st = (st1, if r1 then Reject else Resolve h) /\
       imgs st1 = imgs st).
Proof.
  split.
  - intros Hc.
    set (b1 := createImageBase o idx highRes st).
    set (st1 := with_imgs (imgs st ++ [(b1, highRes)]) (tell (LoadImage idx highRes r1) st)).
    set (b2 := createImageBase o idx highRes st1).
    exists b1, b2, st1, (with_imgs (imgs st1 ++ [(b2, highRes)]) (tell (LoadImage idx highRes r2) st1)).
    assert (Hc1 : cache highRes st1 !! idx = None) by (destruct highRes; exact Hc).
    split; [apply loadImage_uncached, Hc|].
    split; [apply loadImage_uncached, Hc1|].
    split; [cbn; rewrite <- app_assoc; reflexivity|].
    assert (Hb2 : img b2 = S (img b1)).
    { cbn. rewrite length_app. cbn. lia. }
    split; [lia|]. split; [reflexivity|]. split; [reflexivity|]. split; [reflexivity|].
    split.
    + exists (<[img b1 := None]> {[img b2 := Some (1, 1)]}). cbn [status].
      rewrite lookup_insert_eq, lookup_insert_ne, lookup_singleton_eq by lia. split; reflexivity.
    + apply onload_cache. cbn [imgs with_imgs tell with_log].
      subst st1. cbn [imgs with_imgs tell with_log]. rewrite <- app_assoc.
      rewrite lookup_app_r by (cbn; lia). cbn [img createImageBase].
      rewrite Nat.sub_diag. reflexivity.
  - intros h Hc. eexists. split; [apply loadImage_cached, Hc|]. reflexivity.
Qed.

Lemma loadImage_no_single_flight_witness :
  exists b1 b2 st1 st2,
    loadImage exampleOptions 5 false false (initial 0) = (st1, Load (img b1)) /\
    loadImage exampleOptions 5 false false st1 = (st2, Load (img b2)) /\
    img b1 <> img b2 /\ src b1 = src b2.
Proof.
  destruct (loadImage_no_single_flight exampleOptions 5 false false false (initial 0))
    as [H _].
  destruct H as (b1 & b2 & st1 & st2 & E1 & E2 & _ & Hne & Hsrc & _);
    [vm_compute; reflexivity|].
  exists b1, b2, st1, st2. auto.
Defined.

(** ** Promises settle once *)


Lemma Promise_all_fulfilled (fired : Fired) promises :
  Promise_all fired promises = Fulfilled <-> Forall (fun p => status fired p = Fulfilled) promises.
Proof.
  induction promises as [|p promises IH]; cbn.
  - split; [constructor | reflexivity].
  - rewrite Forall_cons, <- IH.
    destruct (status fired p), (Promise_all fired promises); intuition congruence.
Qed.





Section Controller.

Variable o : FrameByFrameOption.
Variable windowHeight : Q.
Variables innerWidth innerHeight : Z.
Variable scrollTop0 : Q.











End Controller.

(** ** The constructor waits for the whole preload *)




(** ** The forward chain and the interval *)

(** The callback that clears [isFowardLoading] runs for a fulfilled chain
    only: a chain with a failed member leaves the flag as it is. *)
Lemma forward_then_rejected o windowHeight innerWidth innerHeight fired chain st :
  Promise_all fired chain = Rejected ->
  exists st',
    run o windowHeight innerWidth innerHeight fired (ForwardThen chain) st = Some st' /\
    isFowardLoading st' = isFowardLoading st /\ tasks st' = tasks st.
Proof.
  intros H. cbn [run]. rewrite H. eexists. split; [reflexivity|]. split; reflexivity.
Qed.

Lemma forward_then_fulfilled o windowHeight innerWidth innerHeight fired chain st :
  Promise_all fired chain = Fulfilled ->
  run o windowHeight innerWidth innerHeight fired (ForwardThen chain) st
  = Some (with_isFowardLoading false st).
Proof. intros H. cbn [run]. rewrite H. reflexivity. Qed.

(** And a pass that awaits a chain with a failed member never starts. *)
Lemma forward_await_rejected o windowHeight innerWidth innerHeight fired chain i st :
  Promise_all fired chain = Rejected ->
  run o windowHeight innerWidth innerHeight fired (ForwardAwait chain i) st
  = Some (tell (Uncaught UnhandledRejection) st).
Proof. intros H. cbn [run]. rewrite H. reflexivity. Qed.


(** C5: ten frames, the page ready, then a scroll to frame 2.  The forward
    chain fetches frames 3 and 4; the transfer of frame 3 fails and the one
    of frame 4 loads.  The chain has settled (rejected) and no continuation
    is left, but [isFowardLoading] is still true: the callback that clears it
    is only given for the fulfilled chain.  The interval callback then skips
    its turn. *)
Theorem forward_flag_stays_set_after_failure :
  exists st fired,
    examplePage [ImageLoad 0 400 300; ImageLoad 1 400 300; ImageLoad 2 400 300; Continue 0;
                 ImageLoad 3 1600 1200; Continue 0; Continue 0; Continue 0; Continue 0;
                 Scroll (60 # 1); Continue 0; Continue 0;
                 ImageError 4; ImageLoad 5 400 300; Continue 0]
      = Some (st, fired) /\
    tiers (drop 4 (imgs st)) = [(3, false); (4, false)] /\
    forwardLoading st = [Load 4; Load 5] /\
    status fired (Load 4) = Rejected /\ status fired (Load 5) = Fulfilled /\
    Promise_all fired (forwardLoading st) = Rejected /\
    tasks st = [] /\
    isFowardLoading st = true /\
    intervalId st = true /\
    intervalCallback exampleOptions st = st.
Proof.
  eexists _, _. split; [vm_compute; reflexivity|].
  repeat split; vm_compute; reflexivity.
Qed.

(** C7: ten frames, the page ready, then a scroll to frame 2.  The forward
    look-ahead pass for index 2 fetches [ld/f3.jpg] and [ld/f4.jpg]; the
    transfer of frame 3 fails and the one of frame 4 loads.  The viewer then
    scrolls to frame 6, whose image loads and is displayed.  The pass for
    index 6 awaits the stored chain, which is rejected, and ends at its
    [await]: frames 7 and 8, the indices i with 6+1 <= i < ub for
    ub = min(6 + 10 * 0.25, 10), are not in the low cache, no transfer was
    started for them, [loadImage] was not called after the one of frame 6,
    and no continuation is left that would call it.  The stored chain is the
    rejected one still. *)
Theorem forwardLoad_stops_after_failed_chain :
  exists st fired,
    examplePage [ImageLoad 0 400 300; ImageLoad 1 400 300; ImageLoad 2 400 300; Continue 0;
                 ImageLoad 3 1600 1200; Continue 0; Continue 0; Continue 0; Continue 0;
                 Scroll (60 # 1); Continue 0; Continue 0;
                 ImageError 4; ImageLoad 5 400 300; Continue 0;
                 Scroll (170 # 1); ImageLoad 6 400 300; Continue 0; Continue 0]
      = Some (st, fired) /\
    transfers (imgs st)
    = [(0, "ld/f0.jpg", false); (1, "ld/f1.jpg", false); (2, "ld/f2.jpg", false);
       (0, "hd/f0.jpg", true);
       (3, "ld/f3.jpg", false); (4, "ld/f4.jpg", false);
       (6, "ld/f6.jpg", false)] /\
    drop 15 (log st)
    = [LoadImage 6 false false;
       CanvasDraw 6 (drawOnCanvas 800 400 (Some (400, 300)));
       FrameUpdated 6;
       Uncaught UnhandledRejection] /\
    below (6 + 1) (getForwardLoadingUpperBound exampleOptions 6) = [7; 8] /\
    loadedImages st !! 7 = None /\ loadedImages st !! 8 = None /\
    tasks st = [] /\
    forwardLoading st = [Load 4; Load 5] /\
    Promise_all fired (forwardLoading st) = Rejected.
Proof.
  eexists _, _. split; [vm_compute; reflexivity|].
  repeat split; vm_compute; reflexivity.
Qed.

(** C6: ten frames, two per turn of the interval, the page ready with the
    interval standing at frame 2; a scroll to frame 2 has let the forward
    chain load frames 3 and 4.  The next turn of the interval asks for frame
    3 with [rejectAlreadyLoaded], is rejected, and the rejection handler
    throws: the turn ends there with an uncaught error, having started no
    transfer and asked for no further frame, where two images were to be
    loaded. *)
Theorem interval_turn_aborts_on_loaded_frame :
  exists st fired st',
    examplePage [ImageLoad 0 400 300; ImageLoad 1 400 300; ImageLoad 2 400 300; Continue 0;
                 ImageLoad 3 1600 1200; Continue 0; Continue 0; Continue 0; Continue 0;
                 Scroll (60 # 1); Continue 0; Continue 0;
                 ImageLoad 4 400 300; ImageLoad 5 400 300; Continue 0]
      = Some (st, fired) /\
    dom (loadedImages st) = {[0; 1; 2; 3; 4]} /\
    latestIntervalLoadedImage st = 2 /\
    isFowardLoading st = false /\ intervalId st = true /\ tasks st = [] /\
    Math.floor (inject_Z (numberOfImages exampleOptions)
                * intervalLoadPercentage exampleOptions)%Q = 2 /\
    exec exampleOptions (600 # 1) 800 400 [Interval; Continue 0] (st, fired)
      = Some (st', fired) /\
    log st' = log st ++ [LoadImage 3 false true; Uncaught (UnableToLoad 3)] /\
    imgs st' = imgs st /\
    tasks st' = [] /\
    latestIntervalLoadedImage st' = 3.
Proof.
  eexists _, _, _. split; [vm_compute; reflexivity|].
  split; [vm_compute; reflexivity|].
  do 5 (split; [vm_compute; reflexivity|]).
  split; [vm_compute; reflexivity|].
  repeat split; vm_compute; reflexivity.
Qed.

(* ================================================================== *)
(** * The rest of the class *)

(** ** The catalogue *)

(** X1: the catalogue holds one path per number from [imageCountFirst] to
    [imageCountLast] (none when the range is empty), and the path of index
    [k] is the prefix followed by the decimal digits of
    [imageCountFirst + k]; any other index has no path, which a template
    string shows as [undefined]. *)
Theorem getImagesPath_catalogue (o : FrameByFrameOption) (k : Z) :
  numberOfImages o = Z.max 0 (imageCountLast o - imageCountFirst o + 1) /\
  (0 <= k < numberOfImages o ->
   imagesPath_at o k = imagePrefix o +:+ pretty (imageCountFirst o + k)) /\
  (k < 0 \/ numberOfImages o <= k -> imagesPath_at o k = "undefined").
Proof.
  split; [apply numberOfImages_count|].
  split; [apply imagesPath_at_inside | apply imagesPath_at_outside].
Qed.

Lemma getImagesPath_catalogue_witness :
  imagesPath_at exampleOptions 7 = "f7" /\ imagesPath_at exampleOptions 10 = "undefined".
Proof.
  assert (EN : numberOfImages exampleOptions = 10) by (vm_compute; reflexivity).
  destruct (getImagesPath_catalogue exampleOptions 7) as (_ & H & _).
  destruct (getImagesPath_catalogue exampleOptions 10) as (_ & _ & H').
  split; [rewrite H; [reflexivity | lia] | apply H'; lia].
Defined.

Lemma string_app_cons a (x s : string) : String a x +:+ s = String a (x +:+ s).
Proof. reflexivity. Qed.

Lemma string_length_app (x s : string) :
  String.length (x +:+ s) = (String.length x + String.length s)%nat.
Proof.
  induction x as [|a x IH]; [reflexivity|].
  rewrite string_app_cons. simpl. f_equal. exact IH.
Qed.

Lemma string_app_assoc (x y z : string) : (x +:+ y) +:+ z = x +:+ (y +:+ z).
Proof.
  induction x as [|a x IH]; [reflexivity|].
  rewrite !string_app_cons, IH. reflexivity.
Qed.

Lemma string_app_inj_r (s : string) : forall x y : string, x +:+ s = y +:+ s -> x = y.
Proof.
  induction x as [|a x IH]; intros [|b y] H.
  - reflexivity.
  - apply (f_equal String.length) in H. rewrite !string_length_app in H. simpl in H. lia.
  - apply (f_equal String.length) in H. rewrite !string_length_app in H. simpl in H. lia.
  - rewrite !string_app_cons in H. injection H as -> H. f_equal. apply IH, H.
Qed.

(** X2: the element made for a frame of the catalogue is the next node of
    the page, keeps the index it was asked for, and is addressed by the
    directory of its tier, the prefix, the decimal number of the frame, a dot
    and the extension; two different frames of the catalogue never share an
    address within a tier. *)
Theorem createImageBase_address (o : FrameByFrameOption) (k k' : Z) (highRes : bool)
    (st st' : FrameByFrame) :
  0 <= k < numberOfImages o -> 0 <= k' < numberOfImages o ->
  img (createImageBase o k highRes st) = length (imgs st) /\
  index (createImageBase o k highRes st) = k /\
  src (createImageBase o k highRes st)
  = (if highRes then imageHighResDir o else imageLowResDir o)
    +:+ imagePrefix o +:+ pretty (imageCountFirst o + k) +:+ "." +:+ imageExtension o /\
  (src (createImageBase o k highRes st) = src (createImageBase o k' highRes st') -> k = k').
Proof.
  intros Hk Hk'.
  split; [reflexivity|]. split; [reflexivity|].
  cbn [src createImageBase].
  rewrite (imagesPath_at_inside o k Hk), (imagesPath_at_inside o k' Hk').
  split; [rewrite string_app_assoc; reflexivity|].
  intros H. apply String.app_inj, string_app_inj_r, String.app_inj in H.
  apply pretty_Z_inj in H. lia.
Qed.

Lemma createImageBase_address_witness :
  src (createImageBase exampleOptions 7 true (initial 0)) = "hd/f7.jpg".
Proof.
  assert (EN : numberOfImages exampleOptions = 10) by (vm_compute; reflexivity).
  destruct (createImageBase_address exampleOptions 7 7 true (initial 0) (initial 0))
    as (_ & _ & H & _); [lia | lia |].
  rewrite H. reflexivity.
Defined.

(** ** Which offsets show which frame *)

Lemma Qfloor_unique (x : Q) (i : Z) :
  (inject_Z i <= x)%Q -> (x < inject_Z (i + 1))%Q -> Qfloor x = i.
Proof.
  intros Hlo Hhi.
  assert (H1 : i <= Qfloor x).
  { rewrite <- (Qfloor_Z i). apply Qfloor_resp_le, Hlo. }
  assert (H2 : Qfloor x < i + 1).
  { rewrite Zlt_Qlt. eapply Qle_lt_trans; [apply Qfloor_le | exact Hhi]. }
  lia.
Qed.

Lemma div_ge (a s p : Q) : (0 < p)%Q -> (a <= s / p)%Q <-> (a * p <= s)%Q.
Proof.
  intros Hp. split; intros H.
  - apply (Qmult_le_r _ _ p Hp) in H. revert H. unfold Qdiv.
    rewrite <- Qmult_assoc, (Qmult_comm (/ p)), Qmult_inv_r, Qmult_1_r; [auto|].
    intros E. rewrite E in Hp. discriminate.
  - apply Qle_shift_div_l; assumption.
Qed.

Lemma div_lt (b s p : Q) : (0 < p)%Q -> (s / p < b)%Q <-> (s < b * p)%Q.
Proof.
  intros Hp. split; intros H.
  - apply (Qmult_lt_r _ _ p Hp) in H. revert H. unfold Qdiv.
    rewrite <- Qmult_assoc, (Qmult_comm (/ p)), Qmult_inv_r, Qmult_1_r; [auto|].
    intros E. rewrite E in Hp. discriminate.
  - apply Qlt_shift_div_r; assumption.
Qed.

Lemma floor_band (s p : Q) (i : Z) :
  (0 < p)%Q ->
  Qfloor (s / p) = i <-> (inject_Z i * p <= s)%Q /\ (s < inject_Z (i + 1) * p)%Q.
Proof.
  intros Hp. rewrite <- div_ge, <- div_lt by exact Hp. split.
  - intros <-. split; [apply Qfloor_le | apply Qlt_floor].
  - intros [Hlo Hhi]. apply Qfloor_unique; assumption.
Qed.

Lemma requested_bands (s vh p : Q) (N i : Z) :
  (0 < p)%Q ->
  (0 <= i < N - 1 ->
   getRequestedImageIndex s vh p N = i
   <-> (inject_Z i * p <= s)%Q /\ (s < inject_Z (i + 1) * p)%Q) /\
  (getRequestedImageIndex s vh p N = N - 1 <-> (inject_Z (N - 1) * p <= s)%Q).
Proof.
  intros Hp. rewrite resolver_unfold, (raw_cancels vh p Hp). split.
  - intros Hi. rewrite <- (floor_band s p i Hp). lia.
  - rewrite <- (div_ge _ s p Hp). split.
    + intros H. apply Qle_trans with (inject_Z (Qfloor (s / p))); [|apply Qfloor_le].
      rewrite <- Zle_Qle. lia.
    + intros H. apply Qfloor_resp_le in H. rewrite Qfloor_Z in H. lia.
Qed.

(** X3: with a pitch > 0, a frame i before the last one is the requested
    one exactly on the scroll offsets from i * pitch (included) to
    (i + 1) * pitch (excluded), whatever the height of the window; the last
    frame N - 1 is the requested one exactly from (N - 1) * pitch on. *)
Theorem resolver_bands (s vh p : Q) (N i : Z) :
  (0 < p)%Q ->
  (0 <= i < N - 1 ->
   getRequestedImageIndex s vh p N = i
   <-> (inject_Z i * p <= s)%Q /\ (s < inject_Z (i + 1) * p)%Q) /\
  (getRequestedImageIndex s vh p N = N - 1 <-> (inject_Z (N - 1) * p <= s)%Q).
Proof. apply requested_bands. Qed.

Lemma resolver_bands_witness :
  getRequestedImageIndex (100 # 1) (600 # 1) (30 # 1) 10 = 3.
Proof.
  destruct (resolver_bands (100 # 1) (600 # 1) (30 # 1) 10 3) as [H _];
    [reflexivity|].
  apply H; [lia|]. split; vm_compute; [discriminate | reflexivity].
Defined.



(** ** Where the interval starts *)

Lemma foldl_greatest (keys : list Z) : forall a,
  let r := foldl (fun a b => if a >? b then a else b) a keys in
  (r = a \/ r ∈ keys) /\ a <= r /\ (forall j, j ∈ keys -> j <= r).
Proof.
  induction keys as [|b keys IH]; intros a; cbn.
  - split; [auto|]. split; [lia|]. intros j Hj. apply elem_of_nil in Hj. contradiction.
  - destruct (IH (if a >? b then a else b)) as (Hin & Hle & Hall).
    destruct (Z.gtb_spec a b) as [Hab|Hab].
    + split; [destruct Hin as [->|Hin]; [auto | right; right; exact Hin]|].
      split; [exact Hle|].
      intros j Hj. apply elem_of_cons in Hj. destruct Hj as [->|Hj]; [lia | auto].
    + split; [destruct Hin as [->|Hin]; right; [left | right; exact Hin]|].
      split; [lia|].
      intros j Hj. apply elem_of_cons in Hj. destruct Hj as [->|Hj]; [lia | auto].
Qed.

Lemma reduceKeys_greatest (m : gmap Z nat) (k : Z) :
  reduceKeys m = Some k ->
  is_Some (m !! k) /\ forall j, is_Some (m !! j) -> j <= k.
Proof.
  unfold reduceKeys. intros H.
  assert (Hkeys : forall j, j ∈ map fst (map_to_list m) <-> is_Some (m !! j)).
  { intros j. change (map fst (map_to_list m)) with ((map_to_list m).*1).
    rewrite list_elem_of_fmap. split.
    - intros ([j' x] & -> & Hin). apply elem_of_map_to_list in Hin. eauto.
    - intros [x Hx]. exists (j, x). split; [reflexivity|]. apply elem_of_map_to_list, Hx. }
  destruct (map fst (map_to_list m)) as [|a keys] eqn:E; [discriminate|].
  injection H as <-.
  destruct (foldl_greatest keys a) as (Hin & Hle & Hall). cbn in Hin, Hle, Hall.
  split.
  - apply Hkeys. destruct Hin as [->|Hin]; [left | right; exact Hin].
  - intros j Hj. apply Hkeys in Hj. apply elem_of_cons in Hj.
    destruct Hj as [->|Hj]; [exact Hle | auto].
Qed.

Lemma reduceKeys_empty (m : gmap Z nat) : reduceKeys m = None <-> m = ∅.
Proof.
  unfold reduceKeys. split.
  - destruct (map_to_list m) as [|[a x] l] eqn:E; cbn; [|discriminate].
    intros _. apply map_to_list_empty_iff, E.
  - intros ->. rewrite map_to_list_empty. reflexivity.
Qed.

(** X5: [setIntervalLoad] throws when no low-tier image is loaded (the
    [reduce] of no keys); otherwise it sets the interval and starts it at the
    greatest index of the low cache, and touches nothing else of the
    loading. *)
Theorem setIntervalLoad_start (st : FrameByFrame) :
  (setIntervalLoad st = None <-> loadedImages st = ∅) /\
  (forall st', setIntervalLoad st = Some st' ->
     intervalId st' = true /\
     is_Some (loadedImages st !! latestIntervalLoadedImage st') /\
     (forall j, is_Some (loadedImages st !! j) -> j <= latestIntervalLoadedImage st') /\
     loadedImages st' = loadedImages st /\ imgs st' = imgs st /\
     tasks st' = tasks st /\ log st' = log st).
Proof.
  unfold setIntervalLoad. split.
  - rewrite <- reduceKeys_empty. destruct (reduceKeys (loadedImages st)); split; congruence.
  - intros st' H. destruct (reduceKeys (loadedImages st)) as [k|] eqn:E; [|discriminate].
    injection H as <-. destruct (reduceKeys_greatest _ _ E) as [Hk Hall]. cbn. auto 10.
Qed.

Lemma setIntervalLoad_start_witness :
  exists st', setIntervalLoad (with_loadedImages {[3 := 0%nat; 7 := 1%nat]} (initial 0)) = Some st' /\
              intervalId st' = true.
Proof.
  destruct (setIntervalLoad (with_loadedImages {[3 := 0%nat; 7 := 1%nat]} (initial 0)))
    as [st'|] eqn:E; [|vm_compute in E; discriminate].
  exists st'. split; [reflexivity|].
  exact (proj1 (proj2 (setIntervalLoad_start _) st' E)).
Defined.

(** ** The crop stays inside the image *)

Lemma qdiv_pos (a b : Q) : (0 < a)%Q -> (0 < b)%Q -> (0 < a / b)%Q.
Proof.
  intros Ha Hb. apply Qlt_shift_div_l; [exact Hb|]. rewrite Qmult_0_l. exact Ha.
Qed.

Lemma qmin_pos (a b : Q) : (0 < a)%Q -> (0 < b)%Q -> (0 < Math.qmin a b)%Q.
Proof. intros Ha Hb. unfold Math.qmin. destruct (Qle_bool a b); assumption. Qed.

Lemma inject_pos (n : Z) : 0 < n -> (0 < inject_Z n)%Q.
Proof. intros H. change 0%Q with (inject_Z 0). rewrite <- Zlt_Qlt. exact H. Qed.

(** The four [if]s that end [drawOnCanvas], on one axis. *)
Lemma crop_inside (image source : Q) :
  (0 < image)%Q -> (0 < source)%Q ->
  let x := ((image - source) * (1 # 2))%Q in
  let x' := if Math.ltb x 0 then 0%Q else x in
  let source' := if Math.gtb source image then image else source in
  (0 <= x')%Q /\ (0 < source')%Q /\ (x' + source' <= image)%Q.
Proof.
  intros Hi Hs x x' source'. subst x' source'. unfold Math.gtb.
  destruct (Math.ltb image source) eqn:E.
  - apply ltb_lt in E.
    assert (Hx : Math.ltb x 0 = true).
    { apply ltb_lt. unfold x. unfold Qlt, Qle in *. cbn in *. nia. }
    rewrite Hx. split; [apply Qle_refl|]. split; [exact Hi|].
    rewrite Qplus_0_l. apply Qle_refl.
  - apply ltb_ge in E.
    assert (Hx : Math.ltb x 0 = false).
    { apply ltb_ge. unfold x. unfold Qlt, Qle in *. cbn in *. nia. }
    rewrite Hx. split; [apply ltb_ge, Hx|]. split; [exact Hs|].
    unfold x. unfold Qlt, Qle in *. cbn in *. nia.
Qed.

(** X6: for an image and a canvas of positive sizes, [drawOnCanvas] draws
    onto the whole canvas from a source rectangle of positive width and
    height that lies inside the image; without an image it draws nothing. *)
Theorem drawOnCanvas_inside (canvasWidth canvasHeight width height : Z) :
  0 < canvasWidth -> 0 < canvasHeight -> 0 < width -> 0 < height ->
  drawOnCanvas canvasWidth canvasHeight None = None /\
  exists d,
    drawOnCanvas canvasWidth canvasHeight (Some (width, height)) = Some d /\
    (0 <= sourceX d)%Q /\ (0 <= sourceY d)%Q /\
    (0 < sourceWidth d)%Q /\ (0 < sourceHeight d)%Q /\
    (sourceX d + sourceWidth d <= inject_Z width)%Q /\
    (sourceY d + sourceHeight d <= inject_Z height)%Q /\
    destX d = 0%Q /\ destY d = 0%Q /\
    destWidth d = inject_Z canvasWidth /\ destHeight d = inject_Z canvasHeight.
Proof.
  intros Hcw Hch Hw Hh. split; [reflexivity|].
  apply inject_pos in Hcw, Hch, Hw, Hh.
  unfold drawOnCanvas. cbv zeta.
  set (ratio := Math.qmin _ _).
  assert (Hratio : (0 < ratio)%Q) by (apply qmin_pos; apply qdiv_pos; assumption).
  set (resized := (inject_Z width * ratio)%Q).
  assert (Hresized : (0 < resized)%Q) by (apply Qmult_lt_0_compat; assumption).
  set (adjusted := if Math.ltb (inject_Z (Math.round resized)) (inject_Z canvasHeight)
                   then _ else _).
  assert (Hadjusted : (0 < adjusted)%Q).
  { subst adjusted.
    destruct (Math.ltb _ (inject_Z canvasHeight)); [apply qdiv_pos; assumption|].
    destruct (Math.ltb _ (inject_Z canvasWidth)); [apply qdiv_pos; assumption | reflexivity]. }
  set (sw := (inject_Z width / (resized * adjusted / inject_Z canvasWidth))%Q).
  set (sh := (inject_Z height / (resized * adjusted / inject_Z canvasHeight))%Q).
  assert (Hsw : (0 < sw)%Q).
  { repeat first [apply qdiv_pos | apply Qmult_lt_0_compat]; assumption. }
  assert (Hsh : (0 < sh)%Q).
  { repeat first [apply qdiv_pos | apply Qmult_lt_0_compat]; assumption. }
  destruct (crop_inside (inject_Z width) sw Hw Hsw) as (X1 & X2 & X3).
  destruct (crop_inside (inject_Z height) sh Hh Hsh) as (Y1 & Y2 & Y3).
  eexists. split; [reflexivity|]. cbn [sourceX sourceY sourceWidth sourceHeight
                                        destX destY destWidth destHeight].
  repeat split; assumption.
Qed.

Lemma drawOnCanvas_inside_witness :
  exists d, drawOnCanvas 800 400 (Some (400, 300)) = Some d /\
            (sourceY d + sourceHeight d <= inject_Z 300)%Q.
Proof.
  destruct (drawOnCanvas_inside 800 400 400 300) as (_ & d & E & H); [lia | lia | lia | lia |].
  exists d. split; [exact E | apply H].
Defined.

Lemma round_integer (x : Q) (m : Z) : (x == inject_Z m)%Q -> Math.round x = m.
Proof.
  intros E. unfold Math.round. apply Qfloor_unique; rewrite E.
  - rewrite <- (Qplus_0_r (inject_Z m)) at 1. apply Qplus_le_r. discriminate.
  - rewrite inject_Z_plus. apply Qplus_lt_r. reflexivity.
Qed.

Lemma ltb_inject (a b : Z) : Math.ltb (inject_Z a) (inject_Z b) = (a <? b).
Proof.
  destruct (Z.ltb_spec a b) as [H|H].
  - apply ltb_lt. rewrite <- Zlt_Qlt. exact H.
  - apply ltb_ge. rewrite <- Zle_Qle. exact H.
Qed.

Lemma qdiv_cancel (a b : Q) : (0 < b)%Q -> (b * (a / b) == a)%Q.
Proof. intros Hb. field. intros E. rewrite E in Hb. discriminate. Qed.

Lemma div_le_same (a b n : Q) : (0 < n)%Q -> (a / n <= b / n)%Q <-> (a <= b)%Q.
Proof. intros Hn. unfold Qdiv. apply Qmult_le_r, Qinv_lt_0_compat, Hn. Qed.

(** What [drawOnCanvas] resizes a square image to: the greater side of the
    canvas. *)
Lemma square_resized (cw ch n : Z) :
  0 < cw -> 0 < ch -> 0 < n ->
  let ratio := Math.qmin (inject_Z cw / inject_Z n) (inject_Z ch / inject_Z n) in
  let resized := (inject_Z n * ratio)%Q in
  let adjusted :=
    if Math.ltb (inject_Z (Math.round resized)) (inject_Z ch) then (inject_Z ch / resized)%Q
    else if Math.ltb (inject_Z (Math.round resized)) (inject_Z cw) then (inject_Z cw / resized)%Q
    else 1%Q in
  (resized * adjusted == inject_Z (Z.max cw ch))%Q.
Proof.
  intros Hcw Hch Hn ratio resized adjusted.
  pose proof (inject_pos _ Hcw) as Qcw. pose proof (inject_pos _ Hch) as Qch.
  pose proof (inject_pos _ Hn) as Qn.
  assert (Hres : (resized == inject_Z (Z.min cw ch))%Q).
  { unfold resized, ratio, Math.qmin.
    destruct (Qle_bool (inject_Z cw / inject_Z n) (inject_Z ch / inject_Z n)) eqn:E.
    - apply Qle_bool_iff in E. rewrite div_le_same in E by exact Qn.
      rewrite <- Zle_Qle in E. rewrite Z.min_l by exact E. apply qdiv_cancel, Qn.
    - apply not_true_iff_false in E. rewrite Qle_bool_iff, div_le_same in E by exact Qn.
      rewrite <- Zle_Qle in E. rewrite Z.min_r by lia. apply qdiv_cancel, Qn. }
  assert (Hpos : (0 < resized)%Q) by (rewrite Hres; apply inject_pos; lia).
  unfold adjusted. rewrite (round_integer resized _ Hres), !ltb_inject.
  destruct (Z.ltb_spec (Z.min cw ch) ch) as [H1|H1].
  - rewrite qdiv_cancel by exact Hpos. rewrite Z.max_r by lia. reflexivity.
  - destruct (Z.ltb_spec (Z.min cw ch) cw) as [H2|H2].
    + rewrite qdiv_cancel by exact Hpos. rewrite Z.max_l by lia. reflexivity.
    + rewrite Qmult_1_r, Hres. replace (Z.min cw ch) with (Z.max cw ch) by lia. reflexivity.
Qed.

Lemma crop_unclamped (image source : Q) :
  (source <= image)%Q ->
  (if Math.ltb ((image - source) * (1 # 2)) 0 then 0%Q else ((image - source) * (1 # 2))%Q)
  = ((image - source) * (1 # 2))%Q /\
  (if Math.gtb source image then image else source) = source.
Proof.
  intros H. unfold Math.gtb.
  assert (H1 : Math.ltb ((image - source) * (1 # 2)) 0 = false).
  { apply ltb_ge. unfold Qle in *. cbn in *. nia. }
  assert (H2 : Math.ltb image source = false) by (apply ltb_ge, H).
  rewrite H1, H2. split; reflexivity.
Qed.

Lemma source_le (image resized canvas : Q) :
  (0 < image)%Q -> (0 < canvas)%Q -> (canvas <= resized)%Q ->
  (image / (resized / canvas) <= image)%Q.
Proof.
  intros Hi Hc Hr.
  assert (H1 : (1 <= resized / canvas)%Q).
  { apply Qle_shift_div_l; [exact Hc|]. rewrite Qmult_1_l. exact Hr. }
  apply Qle_shift_div_r; [eapply Qlt_le_trans; [|exact H1]; reflexivity|].
  rewrite <- (Qmult_1_r image) at 1. apply Qmult_le_l; assumption.
Qed.

(** X7: a square image is fitted as a cover should be: the source rectangle
    has the aspect ratio of the canvas, is centred in the image, and spans
    the whole image along the longer side of the canvas. *)
Theorem drawOnCanvas_square (canvasWidth canvasHeight side : Z) :
  0 < canvasWidth -> 0 < canvasHeight -> 0 < side ->
  exists d,
    drawOnCanvas canvasWidth canvasHeight (Some (side, side)) = Some d /\
    sameAspect d /\
    (sourceX d + sourceWidth d + sourceX d == inject_Z side)%Q /\
    (sourceY d + sourceHeight d + sourceY d == inject_Z side)%Q /\
    (canvasHeight <= canvasWidth -> (sourceWidth d == inject_Z side)%Q) /\
    (canvasWidth <= canvasHeight -> (sourceHeight d == inject_Z side)%Q).
Proof.
  intros Hcw Hch Hn.
  pose proof (square_resized canvasWidth canvasHeight side Hcw Hch Hn) as HR.
  cbv zeta in HR.
  pose proof (inject_pos _ Hcw) as Qcw. pose proof (inject_pos _ Hch) as Qch.
  pose proof (inject_pos _ Hn) as Qn.
  unfold drawOnCanvas. cbv zeta.
  set (R := (inject_Z side * Math.qmin _ _ * _)%Q) in *.
  assert (Hw : (inject_Z canvasWidth <= R)%Q) by (rewrite HR, <- Zle_Qle; lia).
  assert (Hh : (inject_Z canvasHeight <= R)%Q) by (rewrite HR, <- Zle_Qle; lia).
  assert (HRpos : (0 < R)%Q) by (eapply Qlt_le_trans; [exact Qcw | exact Hw]).
  assert (HRne : ~ (R == 0)%Q) by (intros E; rewrite E in HRpos; discriminate).
  assert (Hcne : ~ (inject_Z canvasWidth == 0)%Q)
    by (intros E; rewrite E in Qcw; discriminate).
  assert (Hhne : ~ (inject_Z canvasHeight == 0)%Q)
    by (intros E; rewrite E in Qch; discriminate).
  destruct (crop_unclamped (inject_Z side) (inject_Z side / (R / inject_Z canvasWidth)))
    as [EX EW]; [apply source_le; assumption|].
  destruct (crop_unclamped (inject_Z side) (inject_Z side / (R / inject_Z canvasHeight)))
    as [EY EH]; [apply source_le; assumption|].
  eexists. split; [reflexivity|].
  unfold sameAspect.
  cbn [sourceX sourceY sourceWidth sourceHeight destX destY destWidth destHeight].
  rewrite EX, EW, EY, EH.
  split; [field; auto|]. split; [field; auto|]. split; [field; auto|]. split.
  - intros Hle. assert (E : (R == inject_Z canvasWidth)%Q)
      by (rewrite HR, Z.max_l by lia; reflexivity).
    rewrite E. field. auto.
  - intros Hle. assert (E : (R == inject_Z canvasHeight)%Q)
      by (rewrite HR, Z.max_r by lia; reflexivity).
    rewrite E. field. auto.
Qed.

Lemma drawOnCanvas_square_witness :
  exists d, drawOnCanvas 800 400 (Some (300, 300)) = Some d /\ sameAspect d.
Proof.
  destruct (drawOnCanvas_square 800 400 300) as (d & E & H & _); [lia | lia | lia |].
  exists d. split; assumption.
Defined.

(** ** What the operations leave alone *)

Lemma extends_intro st st' :
  loadedImages st' = loadedImages st ->
  loadedHighResImages st' = loadedHighResImages st ->
  listening st' = listening st ->
  imgs st' = imgs st -> tasks st' = tasks st -> log st' = log st ->
  extends st st'.
Proof.
  intros H1 H2 H3 H4 H5 H6. split; [exact H1|]. split; [exact H2|]. split; [exact H3|].
  split; [|split].
  - exists []. rewrite app_nil_r. split; [exact H4|]. intros k e Hk. discriminate.
  - exists []. rewrite app_nil_r. split; [exact H5 | reflexivity].
  - exists []. rewrite app_nil_r. split; [exact H6 | reflexivity].
Qed.

Lemma extends_refl st : extends st st.
Proof. apply extends_intro; reflexivity. Qed.

Lemma extends_trans st1 st2 st3 : extends st1 st2 -> extends st2 st3 -> extends st1 st3.
Proof.
  intros (A1 & A2 & A3 & (n1 & A4 & A4') & (t1 & A5 & A5') & (e1 & A6 & A6'))
         (B1 & B2 & B3 & (n2 & B4 & B4') & (t2 & B5 & B5') & (e2 & B6 & B6')).
  split; [congruence|]. split; [congruence|]. split; [congruence|]. split; [|split].
  - exists (n1 ++ n2). split; [rewrite B4, A4, app_assoc; reflexivity|].
    intros k e Hk. apply lookup_app_Some in Hk. destruct Hk as [Hk|[Hlen Hk]].
    + apply A4', Hk.
    + rewrite (B4' _ _ Hk), A4, length_app. lia.
  - exists (t1 ++ t2). split; [rewrite B5, A5, app_assoc; reflexivity|].
    rewrite forallb_app, A5', B5'. reflexivity.
  - exists (e1 ++ e2). split; [rewrite B6, A6, app_assoc; reflexivity|].
    rewrite forallb_app, A6', B6'. reflexivity.
Qed.

Lemma extends_tell e st : isComplete e = false -> extends st (tell e st).
Proof.
  intros He. split; [reflexivity|]. split; [reflexivity|]. split; [reflexivity|].
  split; [|split].
  - exists []. rewrite app_nil_r. split; [reflexivity|]. intros k x Hk. discriminate.
  - exists []. rewrite app_nil_r. split; reflexivity.
  - exists [e]. split; [reflexivity|]. cbn. rewrite He. reflexivity.
Qed.

Lemma extends_spawn t st : controls t = false -> extends st (spawn t st).
Proof.
  intros Ht. split; [reflexivity|]. split; [reflexivity|]. split; [reflexivity|].
  split; [|split].
  - exists []. rewrite app_nil_r. split; [reflexivity|]. intros k x Hk. discriminate.
  - exists [t]. split; [reflexivity|]. cbn. rewrite Ht. reflexivity.
  - exists []. rewrite app_nil_r. split; reflexivity.
Qed.

Lemma extends_loadImage o i highRes rj st : extends st (fst (loadImage o i highRes rj st)).
Proof.
  destruct (cache highRes st !! i) as [h|] eqn:E.
  - rewrite (loadImage_cached o _ _ _ _ _ E). apply extends_tell. reflexivity.
  - rewrite (loadImage_uncached o _ _ _ _ E).
    eapply extends_trans; [apply (extends_tell (LoadImage i highRes rj)); reflexivity|].
    split; [reflexivity|]. split; [reflexivity|]. split; [reflexivity|]. split; [|split].
    + eexists. split; [reflexivity|]. intros [|k] e Hk; [|discriminate].
      injection Hk as <-. cbn. lia.
    + exists []. rewrite app_nil_r. split; reflexivity.
    + exists []. rewrite app_nil_r. split; reflexivity.
Qed.

Lemma extends_loadEach o fuel : forall i ub st ps,
  extends st (fst (loadEach o fuel i ub st ps)).
Proof.
  induction fuel as [|fuel IH]; intros i ub st ps; cbn [loadEach].
  - apply extends_refl.
  - destruct (Math.ltb (inject_Z i) ub); [|apply extends_refl].
    pose proof (extends_loadImage o i false false st) as H.
    destruct (loadImage o i false false st) as [st1 p]. cbn [fst] in H.
    eapply extends_trans; [exact H | apply IH].
Qed.

Lemma extends_drawOnScreenImage o wh highRes st :
  extends st (fst (drawOnScreenImage o wh highRes st)).
Proof.
  unfold drawOnScreenImage.
  pose proof (extends_loadImage o
    (getRequestedImageIndex (scrollTop st) wh (pxPerImg o) (numberOfImages o)) highRes false st)
    as H.
  destruct (loadImage _ _ _ _ _) as [st1 p]. cbn [fst] in *.
  eapply extends_trans; [exact H | apply extends_spawn; reflexivity].
Qed.

Lemma extends_forwardLoad i st : extends st (forwardLoad i st).
Proof. apply extends_spawn. reflexivity. Qed.

Lemma extends_forwardLoad_resume o i st : extends st (forwardLoad_resume o i st).
Proof.
  unfold forwardLoad_resume.
  pose proof (extends_loadEach o (turns (i + 1) (getForwardLoadingUpperBound o i)) (i + 1)
                (getForwardLoadingUpperBound o i) st []) as H.
  destruct (loadEach _ _ _ _ _ _) as [st1 ps]. cbn [fst] in H.
  eapply extends_trans; [exact H|].
  eapply extends_trans; [|apply extends_spawn; reflexivity].
  apply extends_intro; reflexivity.
Qed.

Lemma extends_intervalWhile o n st : extends st (intervalWhile o n st).
Proof.
  unfold intervalWhile.
  destruct ((n >? 0) && (latestIntervalLoadedImage st <? numberOfImages o - 1));
    [|apply extends_refl].
  set (st0 := with_latestIntervalLoadedImage _ st).
  pose proof (extends_loadImage o (latestIntervalLoadedImage st0) false true st0) as H.
  destruct (loadImage _ _ _ _ _) as [st1 p]. cbn [fst] in H.
  eapply extends_trans; [apply (extends_intro st st0); reflexivity|].
  eapply extends_trans; [exact H | apply extends_spawn; reflexivity].
Qed.

Lemma extends_intervalCallback o st : extends st (intervalCallback o st).
Proof.
  unfold intervalCallback.
  destruct (latestIntervalLoadedImage st =? numberOfImages o - 1);
    [apply extends_intro; reflexivity|].
  destruct (negb (isFowardLoading st)); [apply extends_intervalWhile | apply extends_refl].
Qed.

Lemma extends_onscroll o wh st : extends st (onscroll o wh st).
Proof.
  unfold onscroll.
  eapply extends_trans; [|apply extends_drawOnScreenImage].
  apply extends_intro; reflexivity.
Qed.

Lemma extends_onHDTimer o wh st : extends st (onHDTimer o wh st).
Proof.
  unfold onHDTimer.
  pose proof (extends_drawOnScreenImage o wh true (with_HDTimerId false st)) as H.
  destruct (drawOnScreenImage _ _ _ _) as [st1 p]. cbn [fst] in H.
  eapply extends_trans; [apply (extends_intro st (with_HDTimerId false st)); reflexivity|].
  eapply extends_trans; [exact H | apply extends_spawn; reflexivity].
Qed.

Lemma extends_onresize o wh st : extends st (onresize o wh st).
Proof.
  unfold onresize, setTheaterSize.
  pose proof (extends_drawOnScreenImage o wh false st) as H.
  destruct (drawOnScreenImage _ _ _ _) as [st1 p]. cbn [fst] in H.
  eapply extends_trans; [exact H | apply extends_spawn; reflexivity].
Qed.

Lemma extends_grows st st' : extends st st' -> grows st st'.
Proof. intros (H1 & H2 & _ & H4 & _). split; [exact H1|]. split; [exact H2 | exact H4]. Qed.

Lemma grows_intro st st' :
  loadedImages st' = loadedImages st ->
  loadedHighResImages st' = loadedHighResImages st ->
  imgs st' = imgs st -> grows st st'.
Proof.
  intros H1 H2 H3. split; [exact H1|]. split; [exact H2|].
  exists []. rewrite app_nil_r. split; [exact H3|]. intros k e Hk. discriminate.
Qed.

Lemma grows_trans st1 st2 st3 : grows st1 st2 -> grows st2 st3 -> grows st1 st3.
Proof.
  intros (A1 & A2 & n1 & A4 & A4') (B1 & B2 & n2 & B4 & B4').
  split; [congruence|]. split; [congruence|].
  exists (n1 ++ n2). split; [rewrite B4, A4, app_assoc; reflexivity|].
  intros k e Hk. apply lookup_app_Some in Hk. destruct Hk as [Hk|[Hlen Hk]].
  - apply A4', Hk.
  - rewrite (B4' _ _ Hk), A4, length_app. lia.
Qed.

Lemma run_grows o wh iw ih fired t st st' :
  run o wh iw ih fired t st = Some st' -> grows st st'.
Proof.
  destruct t; cbn [run]; intros H.
  - destruct (Promise_all fired promises); try discriminate.
    + pose proof (extends_drawOnScreenImage o wh true st) as E.
      unfold setTheaterSize in H. destruct (drawOnScreenImage _ _ _ _) as [st1 p'].
      injection H as <-. eapply grows_trans; [apply extends_grows, E|].
      apply grows_intro; reflexivity.
    + injection H as <-. apply grows_intro; reflexivity.
  - destruct (status fired p); try discriminate.
    + unfold setIntervalLoad in H. cbn in H.
      destruct (reduceKeys (loadedImages st)); injection H as <-; apply grows_intro; reflexivity.
    + injection H as <-. apply grows_intro; reflexivity.
  - destruct (status fired p); try discriminate; injection H as <-;
      apply grows_intro; reflexivity.
  - destruct (status fired p); try discriminate; injection H as <-;
      apply grows_intro; reflexivity.
  - destruct (status fired p), (value p); try discriminate; injection H as <-;
      apply grows_intro; reflexivity.
  - destruct (Promise_all fired chain); try discriminate; injection H as <-.
    + apply extends_grows, extends_forwardLoad_resume.
    + apply grows_intro; reflexivity.
  - destruct (Promise_all fired chain); try discriminate; injection H as <-;
      apply grows_intro; reflexivity.
  - destruct (status fired p); try discriminate; injection H as <-.
    + apply extends_grows, extends_intervalWhile.
    + apply grows_intro; reflexivity.
Qed.

Lemma sound_grows st st' fired : grows st st' -> sound (st, fired) -> sound (st', fired).
Proof.
  intros (C1 & C2 & news & I & P) (Hb & Hid & Hl & Hc).
  assert (Ecache : forall hr, cache hr st' = cache hr st)
    by (intros [|]; cbn; assumption).
  split; [|split; [|split]].
  - intros n Hn. rewrite I, length_app. specialize (Hb n Hn). lia.
  - intros n e Hn. rewrite I in Hn. apply lookup_app_Some in Hn.
    destruct Hn as [Hn|[Hlen Hn]]; [apply Hid, Hn|].
    rewrite (P _ _ Hn). lia.
  - intros n b hr size Hn Hf. rewrite Ecache.
    assert (Hlt : (n < length (imgs st))%nat) by (apply Hb; eauto).
    rewrite I, lookup_app_l in Hn by exact Hlt. eapply Hl; eassumption.
  - intros hr i h Hh. rewrite Ecache in Hh.
    destruct (Hc _ _ _ Hh) as (b & size & Hn & Hi & Hf).
    exists b, size. split; [|auto]. rewrite I. apply lookup_app_l_Some, Hn.
Qed.

(** What is not an event of an image keeps the caches and only adds
    elements to the page. *)
Lemma act_grows o wh iw ih a st fired st' fired' :
  imageEvent a = false ->
  act o wh iw ih a (st, fired) = Some (st', fired') ->
  grows st st' /\ fired' = fired.
Proof.
  destruct a; try discriminate; intros _; cbn [act]; intros H.
  - destruct (tasks st !! i) as [t|]; [|discriminate].
    destruct (run o wh iw ih fired t _) as [st1|] eqn:E; [|discriminate].
    injection H as <- <-. split; [|reflexivity].
    eapply grows_trans; [|eapply run_grows, E]. apply grows_intro; reflexivity.
  - cbn in H. destruct (listening st); injection H as <- <-; (split; [|reflexivity]).
    + eapply grows_trans; [|apply extends_grows, extends_onscroll].
      apply grows_intro; reflexivity.
    + apply grows_intro; reflexivity.
  - destruct (listening st); [|discriminate]. injection H as <- <-.
    split; [apply extends_grows, extends_onresize | reflexivity].
  - destruct (HDTimerId st); [|discriminate]. injection H as <- <-.
    split; [apply extends_grows, extends_onHDTimer | reflexivity].
  - destruct (intervalId st); [|discriminate]. injection H as <- <-.
    split; [apply extends_grows, extends_intervalCallback | reflexivity].
Qed.

Lemma sound_act o wh iw ih a s s' :
  sound s -> act o wh iw ih a s = Some s' -> sound s'.
Proof.
  destruct s as [st fired], s' as [st' fired']. intros Hs Ha.
  destruct (imageEvent a) eqn:Hev.
  2:{ destruct (act_grows _ _ _ _ _ _ _ _ _ Hev Ha) as [Hg ->].
      eapply sound_grows; eassumption. }
  destruct Hs as (Hb & Hid & Hl & Hc).
  destruct a; try discriminate; cbn [act] in Ha;
    destruct (imgs st !! node) as [[b hr]|] eqn:Ee, (fired !! node) eqn:Ef; try discriminate;
    injection Ha as <- <-.
  - assert (Eimgs : imgs (onload node st) = imgs st).
    { unfold onload. rewrite Ee. destruct hr; reflexivity. }
    assert (Enode : img b = node) by (apply (Hid _ _ Ee)).
    assert (Ecache : forall hr', cache hr' (onload node st)
              = if Bool.eqb hr' hr then <[index b := node]> (cache hr' st) else cache hr' st).
    { intros hr'. unfold onload. rewrite Ee, Enode. destruct hr, hr'; reflexivity. }
    split; [|split; [|split]].
    + intros n [x Hx]. rewrite Eimgs. destruct (decide (node = n)) as [<-|Hne].
      * eapply lookup_lt_Some, Ee.
      * rewrite lookup_insert_ne in Hx by exact Hne. apply Hb. eauto.
    + rewrite Eimgs. exact Hid.
    + intros n b' hr' size Hn Hf. rewrite Eimgs in Hn. rewrite Ecache.
      destruct (decide (node = n)) as [<-|Hne].
      * rewrite Ee in Hn. injection Hn as <- <-. rewrite Bool.eqb_reflx, lookup_insert_eq. eauto.
      * rewrite lookup_insert_ne in Hf by exact Hne.
        pose proof (Hl _ _ _ _ Hn Hf) as Hsome.
        destruct (Bool.eqb hr' hr); [|exact Hsome].
        destruct (decide (index b = index b')) as [->|Hi];
          [rewrite lookup_insert_eq; eauto | rewrite lookup_insert_ne by exact Hi; exact Hsome].
    + intros hr' i h Hh. rewrite Ecache in Hh. rewrite Eimgs.
      destruct (Bool.eqb hr' hr) eqn:Ehr.
      * apply Bool.eqb_prop in Ehr. subst hr'.
        destruct (decide (index b = i)) as [<-|Hi].
        { rewrite lookup_insert_eq in Hh. injection Hh as <-.
          exists b, (width, height). rewrite lookup_insert_eq. auto. }
        rewrite lookup_insert_ne in Hh by exact Hi.
        destruct (Hc _ _ _ Hh) as (b' & size & Hn & Hi' & Hf).
        exists b', size. split; [exact Hn|]. split; [exact Hi'|].
        rewrite lookup_insert_ne; [exact Hf | congruence].
      * destruct (Hc _ _ _ Hh) as (b' & size & Hn & Hi' & Hf).
        exists b', size. split; [exact Hn|]. split; [exact Hi'|].
        rewrite lookup_insert_ne; [exact Hf | congruence].
  - split; [|split; [|split]].
    + intros n [x Hx]. destruct (decide (node = n)) as [<-|Hne].
      * eapply lookup_lt_Some, Ee.
      * rewrite lookup_insert_ne in Hx by exact Hne. apply Hb. eauto.
    + exact Hid.
    + intros n b' hr' size Hn Hf. destruct (decide (node = n)) as [<-|Hne];
        [rewrite lookup_insert_eq in Hf; discriminate|].
      rewrite lookup_insert_ne in Hf by exact Hne. eapply Hl; eassumption.
    + intros hr' i h Hh. destruct (Hc _ _ _ Hh) as (b' & size & Hn & Hi' & Hf).
      exists b', size. split; [exact Hn|]. split; [exact Hi'|].
      rewrite lookup_insert_ne; [exact Hf | congruence].
Qed.

Lemma sound_exec o wh iw ih actions : forall s s',
  sound s -> exec o wh iw ih actions s = Some s' -> sound s'.
Proof.
  induction actions as [|a actions IH]; intros s s' Hs He; cbn in He.
  - injection He as <-. exact Hs.
  - destruct (act o wh iw ih a s) as [s1|] eqn:Ea; [|discriminate].
    eapply IH; [|exact He]. eapply sound_act; eassumption.
Qed.

Lemma sound_constructor o scrollTop : sound (constructor o scrollTop, ∅).
Proof.
  assert (H0 : sound (initial scrollTop, ∅)).
  { split; [|split; [|split]].
    - intros n [x Hx]. rewrite lookup_empty in Hx. discriminate.
    - intros n e Hn. discriminate.
    - intros n b hr size Hn. discriminate.
    - intros [|] i h Hh; cbn in Hh; rewrite lookup_empty in Hh; discriminate. }
  eapply sound_grows; [|exact H0].
  unfold constructor, preloader.
  set (ub := Math.toQ (Math.mul (Math.ofZ (numberOfImages o))
                       (Math.ofQ (preLoadingPercentage o)))).
  pose proof (extends_loadEach o (turns 0 ub) 0 ub (initial scrollTop) []) as H.
  destruct (loadEach _ _ _ _ _ _) as [st ps]. cbn [fst] in H.
  eapply grows_trans; [apply extends_grows, H | apply grows_intro; reflexivity].
Qed.

(** X8: on every page after the constructor, a cache of a tier holds an
    index exactly when an element fetched for that index in that tier has
    fired [load], and the image it holds is such an element: an image whose
    fetch failed or is still pending is in no cache. *)
Theorem cached_iff_loaded (o : FrameByFrameOption) (windowHeight : Q) (innerWidth innerHeight : Z)
    (scrollTop : Q) (actions : list Action) (st : FrameByFrame) (fired : Fired)
    (highRes : bool) (i : Z) :
  exec o windowHeight innerWidth innerHeight actions (constructor o scrollTop, ∅)
  = Some (st, fired) ->
  (is_Some (cache highRes st !! i)
   <-> exists n b size, imgs st !! n = Some (b, highRes) /\ index b = i /\
                        fired !! n = Some (Some size)) /\
  (forall h, cache highRes st !! i = Some h ->
     exists b size, imgs st !! h = Some (b, highRes) /\ index b = i /\ img b = h /\
                    status fired (Load h) = Fulfilled /\ fired !! h = Some (Some size)).
Proof.
  intros He.
  pose proof (sound_exec _ _ _ _ _ _ _ (sound_constructor o scrollTop) He)
    as (Hb & Hid & Hl & Hc).
  split; [split|].
  - intros [h Hh]. destruct (Hc _ _ _ Hh) as (b & size & Hn & Hi & Hf). eauto 10.
  - intros (n & b & size & Hn & <- & Hf). eapply Hl; eassumption.
  - intros h Hh. destruct (Hc _ _ _ Hh) as (b & size & Hn & Hi & Hf).
    exists b, size. split; [exact Hn|]. split; [exact Hi|].
    split; [apply (Hid _ _ Hn)|]. split; [cbn; rewrite Hf; reflexivity | exact Hf].
Qed.

Lemma cached_iff_loaded_witness :
  exists st fired,
    examplePage [ImageLoad 0 400 300; ImageError 1; ImageLoad 2 400 300] = Some (st, fired) /\
    ~ is_Some (cache false st !! 1).
Proof.
  destruct (examplePage [ImageLoad 0 400 300; ImageError 1; ImageLoad 2 400 300])
    as [[st fired]|] eqn:E; [|vm_compute in E; discriminate].
  exists st, fired. split; [reflexivity|]. intros H.
  apply (cached_iff_loaded exampleOptions (600 # 1) 800 400 0 _ _ _ false 1 E) in H.
  destruct H as (n & b & size & Hn & Hi & Hf).
  vm_compute in E. injection E as <- <-.
  destruct n as [|[|[|n]]]; vm_compute in Hn; try discriminate;
    injection Hn as <-; vm_compute in Hi, Hf; discriminate.
Defined.

Lemma onload_fields node st :
  tasks (onload node st) = tasks st /\ log (onload node st) = log st /\
  listening (onload node st) = listening st /\ imgs (onload node st) = imgs st.
Proof. unfold onload. destruct (imgs st !! node) as [[b [|]]|]; auto. Qed.

Lemma onload_keeps node st highRes i :
  is_Some (cache highRes st !! i) -> is_Some (cache highRes (onload node st) !! i).
Proof.
  unfold onload. destruct (imgs st !! node) as [[b [|]]|]; [| |auto];
    destruct highRes; cbn; auto; intros H; apply lookup_insert_is_Some';
    auto.
Qed.

Lemma act_keeps o wh iw ih a s s' :
  act o wh iw ih a s = Some s' ->
  (forall highRes i, is_Some (cache highRes (fst s) !! i) -> is_Some (cache highRes (fst s') !! i)) /\
  (exists news, imgs (fst s') = imgs (fst s) ++ news) /\
  (forall n x, snd s !! n = Some x -> snd s' !! n = Some x).
Proof.
  destruct s as [st fired], s' as [st' fired']. intros Ha.
  destruct (imageEvent a) eqn:Hev.
  2:{ destruct (act_grows _ _ _ _ _ _ _ _ _ Hev Ha) as [(C1 & C2 & news & I & _) ->].
      cbn [fst snd]. split; [|split; [eauto | auto]].
      intros [|] i; cbn; rewrite ?C1, ?C2; auto. }
  destruct a; try discriminate; cbn [act] in Ha;
    destruct (imgs st !! node) as [e|] eqn:Ee, (fired !! node) eqn:Ef; try discriminate;
    injection Ha as <- <-; cbn [fst snd].
  - split; [intros hr i; apply onload_keeps|]. split.
    + exists []. rewrite app_nil_r. apply onload_fields.
    + intros n x Hn. rewrite lookup_insert_ne; [exact Hn | congruence].
  - split; [auto|]. split; [exists []; rewrite app_nil_r; reflexivity|].
    intros n x Hn. rewrite lookup_insert_ne; [exact Hn | congruence].
Qed.

Lemma exec_keeps (o : FrameByFrameOption) (windowHeight : Q) (innerWidth innerHeight : Z)
    (actions : list Action) (s s' : FrameByFrame * Fired) :
  exec o windowHeight innerWidth innerHeight actions s = Some s' ->
  (forall highRes i, is_Some (cache highRes (fst s) !! i) -> is_Some (cache highRes (fst s') !! i)) /\
  (exists news, imgs (fst s') = imgs (fst s) ++ news) /\
  (forall n x, snd s !! n = Some x -> snd s' !! n = Some x).
Proof.
  revert s. induction actions as [|a actions IH]; intros s He; cbn in He.
  - injection He as <-. split; [auto|]. split; [exists []; rewrite app_nil_r; reflexivity | auto].
  - destruct (act o windowHeight innerWidth innerHeight a s) as [s1|] eqn:Ea; [|discriminate].
    destruct (act_keeps _ _ _ _ _ _ _ Ea) as (K1 & (n1 & I1) & F1).
    destruct (IH _ He) as (K2 & (n2 & I2) & F2).
    split; [auto|]. split; [|auto].
    exists (n1 ++ n2). rewrite I2, I1, app_assoc. reflexivity.
Qed.

(** X9: whatever happens on the page, nothing is ever taken back: an index
    that a cache holds stays in that cache, an element whose [src] was set
    stays on the page with the same node, and an event that has fired stays
    fired. *)
Theorem nothing_is_evicted (o : FrameByFrameOption) (windowHeight : Q) (innerWidth innerHeight : Z)
    (actions : list Action) (s s' : FrameByFrame * Fired) :
  exec o windowHeight innerWidth innerHeight actions s = Some s' ->
  (forall highRes i, is_Some (cache highRes (fst s) !! i) -> is_Some (cache highRes (fst s') !! i)) /\
  (exists news, imgs (fst s') = imgs (fst s) ++ news) /\
  (forall n x, snd s !! n = Some x -> snd s' !! n = Some x).
Proof. apply exec_keeps. Qed.

Lemma nothing_is_evicted_witness :
  exists s s',
    examplePage [ImageLoad 0 400 300] = Some s /\
    exec exampleOptions (600 # 1) 800 400 [ImageLoad 1 400 300; ImageLoad 2 400 300; Continue 0] s
    = Some s' /\
    is_Some (cache false (fst s') !! 0).
Proof.
  destruct (examplePage [ImageLoad 0 400 300]) as [s|] eqn:E;
    [|vm_compute in E; discriminate].
  destruct (exec exampleOptions (600 # 1) 800 400
              [ImageLoad 1 400 300; ImageLoad 2 400 300; Continue 0] s) as [s'|] eqn:E';
    [|exfalso; vm_compute in E; injection E as <-; vm_compute in E'; discriminate].
  exists s, s'. split; [reflexivity|]. split; [exact E'|].
  destruct (nothing_is_evicted _ _ _ _ _ _ _ E') as (K & _).
  apply K. vm_compute in E. injection E as <-. vm_compute. eauto.
Defined.

Lemma onload_inserts (st : FrameByFrame) (n : nat) (b : ImageBase) (highRes : bool) :
  imgs st !! n = Some (b, highRes) ->
  cache highRes (onload n st) !! index b = Some (img b).
Proof.
  intros H. unfold onload. rewrite H. destruct highRes; cbn; apply lookup_insert_eq.
Qed.

(** X10: a cache entry is not written once: when two elements fetched for
    the same index in the same tier both load, the cache holds the one that
    loaded last. *)
Theorem later_load_replaces (o : FrameByFrameOption) (windowHeight : Q) (innerWidth innerHeight : Z)
    (st : FrameByFrame) (fired : Fired) (n1 n2 : nat) (b1 b2 : ImageBase) (highRes : bool)
    (w1 h1 w2 h2 : Z) :
  imgs st !! n1 = Some (b1, highRes) -> imgs st !! n2 = Some (b2, highRes) ->
  index b1 = index b2 -> n1 <> n2 ->
  fired !! n1 = None -> fired !! n2 = None ->
  exists st1 fired1 st2 fired2,
    act o windowHeight innerWidth innerHeight (ImageLoad n1 w1 h1) (st, fired)
    = Some (st1, fired1) /\
    cache highRes st1 !! index b1 = Some (img b1) /\
    act o windowHeight innerWidth innerHeight (ImageLoad n2 w2 h2) (st1, fired1)
    = Some (st2, fired2) /\
    cache highRes st2 !! index b1 = Some (img b2).
Proof.
  intros E1 E2 Ei Hne F1 F2. cbn [act]. rewrite E1, F1.
  eexists _, _, _, _. split; [reflexivity|].
  split; [apply onload_inserts, E1|].
  destruct (onload_fields n1 st) as (_ & _ & _ & ->).
  rewrite E2, lookup_insert_ne, F2 by exact Hne.
  split; [reflexivity|]. rewrite Ei. apply onload_inserts.
  destruct (onload_fields n1 st) as (_ & _ & _ & ->). exact E2.
Qed.

Lemma later_load_replaces_witness :
  exists st st1 fired1 st2 fired2,
    st = fst (loadImage exampleOptions 5 false false
                (fst (loadImage exampleOptions 5 false false (initial 0)))) /\
    act exampleOptions (600 # 1) 800 400 (ImageLoad 0 400 300) (st, ∅) = Some (st1, fired1) /\
    act exampleOptions (600 # 1) 800 400 (ImageLoad 1 400 300) (st1, fired1)
    = Some (st2, fired2) /\
    cache false st2 !! 5 = Some 1%nat.
Proof.
  eexists.
  destruct (later_load_replaces exampleOptions (600 # 1) 800 400
              (fst (loadImage exampleOptions 5 false false
                      (fst (loadImage exampleOptions 5 false false (initial 0)))))
              ∅ 0 1
              (createImageBase exampleOptions 5 false (initial 0))
              (createImageBase exampleOptions 5 false
                 (fst (loadImage exampleOptions 5 false false (initial 0))))
              false 400 300 400 300)
    as (st1 & fired1 & st2 & fired2 & A1 & _ & A2 & C);
    [reflexivity | reflexivity | reflexivity | lia | reflexivity | reflexivity |].
  exists st1, fired1, st2, fired2. split; [reflexivity|]. split; [exact A1|].
  split; [exact A2 | exact C].
Defined.

(** ** [onComplete] is called once at most *)

Lemma filter_none {A} (f : A -> bool) (l : list A) :
  forallb (fun x => negb (f x)) l = true -> List.filter f l = [].
Proof.
  induction l as [|x l IH]; cbn; [reflexivity|].
  intros H. apply andb_true_iff in H. destruct H as [Hx Hl].
  apply negb_true_iff in Hx. rewrite Hx. apply IH, Hl.
Qed.

Lemma existsb_none {A} (f : A -> bool) (l : list A) :
  forallb (fun x => negb (f x)) l = true -> existsb f l = false.
Proof.
  induction l as [|x l IH]; cbn; [reflexivity|].
  intros H. apply andb_true_iff in H. destruct H as [Hx Hl].
  apply negb_true_iff in Hx. rewrite Hx. apply IH, Hl.
Qed.

Lemma filter_delete {A} (f : A -> bool) (l : list A) : forall i t,
  l !! i = Some t ->
  (length (List.filter f (delete i l)) + (if f t then 1 else 0))%nat
  = length (List.filter f l).
Proof.
  induction l as [|x l IH]; intros [|i] t H; try discriminate.
  - injection H as ->. cbn. destruct (f t); cbn; lia.
  - cbn in H. cbn. specialize (IH i t H).
    change (list_delete i l) with (delete i l).
    destruct (f x); cbn; [f_equal|]; exact IH.
Qed.

Lemma extends_count st st' :
  extends st st' ->
  controlCount st' = controlCount st /\
  existsb isComplete (log st') = existsb isComplete (log st) /\
  listening st' = listening st.
Proof.
  intros (_ & _ & L & _ & (ts & T & Ht) & (es & E & He)).
  unfold controlCount. rewrite T, E, !List.filter_app, !length_app.
  rewrite (filter_none _ _ Ht), (filter_none _ _ He), existsb_app, (existsb_none _ _ He).
  cbn. rewrite orb_false_r. split; [lia | auto].
Qed.

Lemma run_extends o wh iw ih fired t st st' :
  controls t = false ->
  run o wh iw ih fired t st = Some st' -> extends st st'.
Proof.
  destruct t; try discriminate; intros _; cbn [run]; intros H.
  - destruct (status fired p); try discriminate; injection H as <-;
      apply extends_tell; reflexivity.
  - destruct (status fired p); try discriminate; injection H as <-;
      [apply extends_refl | apply extends_tell; reflexivity].
  - destruct (status fired p), (value p); try discriminate; injection H as <-;
      try (apply extends_tell; reflexivity).
    eapply extends_trans; [|apply extends_tell; reflexivity].
    eapply extends_trans; [|apply extends_forwardLoad].
    apply extends_tell. reflexivity.
  - destruct (Promise_all fired chain); try discriminate; injection H as <-;
      [apply extends_forwardLoad_resume | apply extends_tell; reflexivity].
  - destruct (Promise_all fired chain); try discriminate; injection H as <-;
      [apply extends_intro; reflexivity | apply extends_tell; reflexivity].
  - destruct (status fired p); try discriminate; injection H as <-;
      [apply extends_intervalWhile | apply extends_tell; reflexivity].
Qed.

Lemma run_once o wh iw ih fired t st st' :
  run o wh iw ih fired t st = Some st' ->
  (controlCount st' <= controlCount st + (if controls t then 1 else 0))%nat /\
  ((existsb isComplete (log st) = true -> listening st = true) ->
   existsb isComplete (log st') = true -> listening st' = true).
Proof.
  intros H. destruct (controls t) eqn:Ec.
  2:{ destruct (extends_count _ _ (run_extends _ _ _ _ _ _ _ _ Ec H)) as (-> & -> & ->).
      split; [lia | auto]. }
  destruct t; try discriminate; cbn [run] in H.
  - destruct (Promise_all fired promises); try discriminate.
    + pose proof (extends_drawOnScreenImage o wh true st) as E.
      unfold setTheaterSize in H. destruct (drawOnScreenImage _ _ _ _) as [st1 p'].
      injection H as <-. cbn [fst] in E.
      destruct (extends_count _ _ E) as (E1 & E2 & E3).
      unfold controlCount in *. cbn [tasks log listening spawn with_tasks].
      rewrite List.filter_app, length_app. cbn. split; [lia|].
      rewrite E2, E3. auto.
    + injection H as <-.
      destruct (extends_count _ _ (extends_tell (Uncaught UnhandledRejection) st eq_refl))
        as (-> & -> & ->).
      split; [lia | auto].
  - destruct (status fired p); try discriminate.
    + unfold setIntervalLoad in H. cbn in H.
      destruct (reduceKeys (loadedImages st)); injection H as <-;
        unfold controlCount; cbn; rewrite List.filter_app, length_app; cbn; split; auto; lia.
    + injection H as <-.
      destruct (extends_count _ _ (extends_tell (Uncaught UnhandledRejection) st eq_refl))
        as (-> & -> & ->).
      split; [lia | auto].
Qed.

(** An action never adds to the callbacks of the constructor that are
    pending or done, and keeps the listeners wherever [onComplete] was
    called. *)
Lemma act_once o wh iw ih a s s' :
  act o wh iw ih a s = Some s' ->
  (controlCount (fst s') <= controlCount (fst s))%nat /\
  ((existsb isComplete (log (fst s)) = true -> listening (fst s) = true) ->
   existsb isComplete (log (fst s')) = true -> listening (fst s') = true).
Proof.
  destruct s as [st fired], s' as [st' fired']. cbn [fst]. intros Ha.
  assert (Hext : forall st1, extends st st1 ->
            (controlCount st1 <= controlCount st)%nat /\
            ((existsb isComplete (log st) = true -> listening st = true) ->
             existsb isComplete (log st1) = true -> listening st1 = true)).
  { intros st1 H. destruct (extends_count _ _ H) as (-> & -> & ->). split; [lia | auto]. }
  destruct a as [node w h|node|i|y| | |]; cbn [act] in Ha.
  - destruct (imgs st !! node), (fired !! node); try discriminate. injection Ha as <- <-.
    destruct (onload_fields node st) as (Et & El & Els & _).
    unfold controlCount. rewrite Et, El, Els. split; [lia | auto].
  - destruct (imgs st !! node), (fired !! node); try discriminate. injection Ha as <- <-.
    split; [lia | auto].
  - destruct (tasks st !! i) as [t|] eqn:Et; [|discriminate].
    destruct (run o wh iw ih fired t _) as [st1|] eqn:E; [|discriminate].
    injection Ha as <- <-.
    destruct (run_once _ _ _ _ _ _ _ _ E) as [H1 H2]. split; [|exact H2].
    pose proof (filter_delete controls (tasks st) i t Et) as Hd.
    unfold controlCount in *. cbn [tasks log with_tasks] in H1. lia.
  - cbn in Ha. destruct (listening st) eqn:L; injection Ha as <- <-.
    + destruct (extends_count _ _ (extends_onscroll o wh (with_scrollTop y st)))
        as (-> & -> & ->). split; [unfold controlCount; cbn; lia | cbn; auto].
    + split; [unfold controlCount; cbn; lia | cbn; intros H1 H2; discriminate (H1 H2)].
  - destruct (listening st); [|discriminate]. injection Ha as <- <-.
    apply Hext, extends_onresize.
  - destruct (HDTimerId st); [|discriminate]. injection Ha as <- <-.
    apply Hext, extends_onHDTimer.
  - destruct (intervalId st); [|discriminate]. injection Ha as <- <-.
    apply Hext, extends_intervalCallback.
Qed.

Lemma exec_once o wh iw ih actions : forall s s',
  exec o wh iw ih actions s = Some s' ->
  (controlCount (fst s') <= controlCount (fst s))%nat /\
  ((existsb isComplete (log (fst s)) = true -> listening (fst s) = true) ->
   existsb isComplete (log (fst s')) = true -> listening (fst s') = true).
Proof.
  induction actions as [|a actions IH]; intros s s' He; cbn in He.
  - injection He as <-. split; [lia | auto].
  - destruct (act o wh iw ih a s) as [s1|] eqn:Ea; [|discriminate].
    destruct (act_once _ _ _ _ _ _ _ Ea) as [A1 A2].
    destruct (IH _ _ He) as [B1 B2]. split; [lia | auto].
Qed.

Lemma onceInv_constructor o scrollTop : onceInv (constructor o scrollTop).
Proof.
  unfold constructor, preloader.
  set (ub := Math.toQ (Math.mul (Math.ofZ (numberOfImages o))
                       (Math.ofQ (preLoadingPercentage o)))).
  pose proof (extends_loadEach o (turns 0 ub) 0 ub (initial scrollTop) []) as H.
  destruct (loadEach _ _ _ _ _ _) as [st ps]. cbn [fst] in H.
  destruct (extends_count _ _ H) as (E1 & E2 & E3).
  unfold onceInv, controlCount in *. cbn [tasks log listening spawn with_tasks].
  rewrite List.filter_app, length_app. cbn in *. rewrite E2. split; [lia | discriminate].
Qed.

(** X11: on every page after the constructor, [onComplete] has been called
    once at most, and once it has been called the resize and scroll listeners
    are there. *)
Theorem onComplete_at_most_once (o : FrameByFrameOption) (windowHeight : Q)
    (innerWidth innerHeight : Z) (scrollTop : Q) (actions : list Action)
    (st : FrameByFrame) (fired : Fired) :
  exec o windowHeight innerWidth innerHeight actions (constructor o scrollTop, ∅)
  = Some (st, fired) ->
  (length (List.filter isComplete (log st)) <= 1)%nat /\
  (Complete ∈ log st -> listening st = true).
Proof.
  intros He. destruct (onceInv_constructor o scrollTop) as [Hc Hl].
  destruct (exec_once _ _ _ _ _ _ _ He) as [H1 H2]. cbn [fst] in H1, H2.
  split; [unfold controlCount in *; lia|].
  intros Hin. apply H2; [exact Hl|]. apply existsb_exists. exists Complete.
  split; [apply list_elem_of_In, Hin | reflexivity].
Qed.

Lemma onComplete_at_most_once_witness :
  exists st fired,
    examplePage [ImageLoad 0 400 300; ImageLoad 1 400 300; ImageLoad 2 400 300; Continue 0;
                 ImageLoad 3 1600 1200; Continue 1; Scroll (60 # 1); Resize] = Some (st, fired) /\
    (length (List.filter isComplete (log st)) <= 1)%nat.
Proof.
  destruct (examplePage [ImageLoad 0 400 300; ImageLoad 1 400 300; ImageLoad 2 400 300; Continue 0;
                 ImageLoad 3 1600 1200; Continue 1; Scroll (60 # 1); Resize])
    as [[st fired]|] eqn:E; [|vm_compute in E; discriminate].
  exists st, fired. split; [reflexivity|].
  apply (onComplete_at_most_once exampleOptions (600 # 1) 800 400 0 _ st fired E).
Defined.

(** X12: once the chain of a forward look-ahead pass is fulfilled, every
    frame of its range is in the low cache, whatever else has happened on the
    page in between. *)
Theorem forward_pass_fills_cache (o : FrameByFrameOption) (windowHeight : Q)
    (innerWidth innerHeight : Z) (scrollTop : Q) (actions actions' : list Action)
    (st st1 st2 : FrameByFrame) (fired fired1 fired2 : Fired) (k : nat)
    (chain : list Promise) (requestedImageIndex i : Z) :
  exec o windowHeight innerWidth innerHeight actions (constructor o scrollTop, ∅)
  = Some (st, fired) ->
  tasks st !! k = Some (ForwardAwait chain requestedImageIndex) ->
  Promise_all fired chain = Fulfilled ->
  act o windowHeight innerWidth innerHeight (Continue k) (st, fired) = Some (st1, fired1) ->
  exec o windowHeight innerWidth innerHeight actions' (st1, fired1) = Some (st2, fired2) ->
  Promise_all fired2 (forwardLoading st1) = Fulfilled ->
  requestedImageIndex + 1 <= i ->
  (inject_Z i < getForwardLoadingUpperBound o requestedImageIndex)%Q ->
  is_Some (loadedImages st2 !! i).
Proof.
  intros He Ht HP Ha He' HP' Hlo Hhi.
  pose proof (sound_exec _ _ _ _ _ _ _ (sound_constructor o scrollTop) He) as Hs.
  pose proof (sound_act _ _ _ _ _ _ _ Hs Ha) as Hs1.
  pose proof (sound_exec _ _ _ _ _ _ _ Hs1 He') as (_ & _ & Hl2 & _).
  destruct (exec_keeps _ _ _ _ _ _ _ He') as (K & (news & I) & _).
  cbn [fst snd] in K, I.
  cbn [act] in Ha. rewrite Ht in Ha. cbn [run] in Ha. rewrite HP in Ha.
  injection Ha as <- <-.
  set (st0 := with_tasks (delete k (tasks st)) st) in *.
  unfold forwardLoad_resume in *.
  set (ub := getForwardLoadingUpperBound o requestedImageIndex) in *.
  destruct (loadEach_spec o (turns (requestedImageIndex + 1) ub) (requestedImageIndex + 1) ub
              st0 []) as (stL & newsL & qs & E & F & _ & _ & _ & HS).
  { intros j Hj. apply turns_test, Hj. }
  rewrite below_turns in HS. rewrite E in *. cbn [app] in *.
  cbn [forwardLoading spawn with_tasks with_isFowardLoading with_forwardLoading] in HP'.
  cbn [imgs loadedImages spawn with_tasks with_isFowardLoading with_forwardLoading] in K, I.
  assert (Hin : i ∈ below (requestedImageIndex + 1) ub) by (apply elem_of_below; auto).
  apply list_elem_of_lookup in Hin. destruct Hin as [pos Hpos].
  destruct (Forall2_lookup_l _ _ _ _ _ HS Hpos) as (q & Hq & Hset).
  assert (Hful : status fired2 q = Fulfilled).
  { apply Promise_all_fulfilled in HP'. rewrite Forall_forall in HP'.
    apply HP'. eapply list_elem_of_lookup_2, Hq. }
  unfold settles in Hset. destruct (loadedImages st0 !! i) as [h|] eqn:Ec.
  - apply (K false i). cbn. destruct F as (-> & _). rewrite Ec. eauto.
  - destruct Hset as (n & b & -> & Hn & <-).
    cbn in Hful. destruct (fired2 !! n) as [[size|]|] eqn:Ef; try discriminate.
    apply (Hl2 n b false size); [|exact Ef].
    rewrite I. apply lookup_app_l_Some, Hn.
Qed.

Lemma forward_pass_fills_cache_witness :
  exists st2 fired2,
    examplePage (readyActions ++ [Scroll (60 # 1); Continue 0; Continue 0;
                                  ImageLoad 4 400 300; ImageLoad 5 400 300])
    = Some (st2, fired2) /\
    is_Some (loadedImages st2 !! 4).
Proof.
  eexists _, _. split; [vm_compute; reflexivity|].
  eapply (forward_pass_fills_cache exampleOptions (600 # 1) 800 400 0
            (readyActions ++ [Scroll (60 # 1); Continue 0])
            [ImageLoad 4 400 300; ImageLoad 5 400 300] _ _ _ _ _ _ 0 _ 2 4).
  - vm_compute. reflexivity.
  - vm_compute. reflexivity.
  - vm_compute. reflexivity.
  - vm_compute. reflexivity.
  - vm_compute. reflexivity.
  - vm_compute. reflexivity.
  - lia.
  - vm_compute. reflexivity.
Defined.




(** ** Only loaded images are drawn *)

Section Draws.

Variable o : FrameByFrameOption.
Variable windowHeight : Q.
Variables innerWidth innerHeight : Z.

Lemma taskOK_later st fired st' fired' t :
  (forall hr i, is_Some (cache hr st !! i) -> is_Some (cache hr st' !! i)) ->
  (exists news, imgs st' = imgs st ++ news) ->
  (forall n x, fired !! n = Some x -> fired' !! n = Some x) ->
  taskOK st fired t -> taskOK st' fired' t.
Proof.
  intros K (news & I) F. destruct t as [| | | |[h| |n] i| | |]; cbn; auto.
  - intros [(hr & Hc) (size & Hf)]. split; [exists hr; auto | exists size; auto].
  - intros (b & hr & Hn & Hi). exists b, hr. split; [|exact Hi].
    rewrite I. apply lookup_app_l_Some, Hn.
Qed.

Lemma effectOK_later st fired st' fired' e :
  (forall hr i, is_Some (cache hr st !! i) -> is_Some (cache hr st' !! i)) ->
  (forall n x, fired !! n = Some x -> fired' !! n = Some x) ->
  effectOK innerWidth innerHeight st fired e -> effectOK innerWidth innerHeight st' fired' e.
Proof.
  intros K F. destruct e; cbn; auto.
  - intros (size & Hf & Hd). exists size. auto.
  - intros (hr & Hc). exists hr. auto.
Qed.

Lemma drawsLoaded_grows st st' fired :
  grows st st' -> tasks st' = tasks st -> log st' = log st ->
  drawsLoaded innerWidth innerHeight (st, fired) -> drawsLoaded innerWidth innerHeight (st', fired).
Proof.
  intros G Et El (Hs & Ht & He). pose proof G as (C1 & C2 & news & I & _).
  assert (K : forall hr i, is_Some (cache hr st !! i) -> is_Some (cache hr st' !! i)).
  { intros [|] i; cbn; rewrite ?C1, ?C2; auto. }
  split; [eapply sound_grows; eassumption|]. cbn [fst snd] in *. rewrite Et, El. split.
  - eapply Forall_impl; [exact Ht|]. intros t. apply taskOK_later; eauto.
  - eapply Forall_impl; [exact He|]. intros e. apply effectOK_later; auto.
Qed.

Lemma drawsLoaded_tell e st fired :
  effectOK innerWidth innerHeight st fired e ->
  drawsLoaded innerWidth innerHeight (st, fired) ->
  drawsLoaded innerWidth innerHeight (tell e st, fired).
Proof.
  intros He (Hs & Ht & Hl). split; [exact Hs|]. split; [exact Ht|].
  cbn. apply Forall_app. split; [exact Hl|]. constructor; [exact He | constructor].
Qed.

Lemma drawsLoaded_spawn t st fired :
  taskOK st fired t ->
  drawsLoaded innerWidth innerHeight (st, fired) ->
  drawsLoaded innerWidth innerHeight (spawn t st, fired).
Proof.
  intros HT (Hs & Ht & Hl). split; [exact Hs|]. split; [|exact Hl].
  cbn. apply Forall_app. split; [exact Ht|]. constructor; [exact HT | constructor].
Qed.

(** [loadImage] keeps the invariant, and the continuation that draws may
    wait on the promise it returns. *)
Lemma drawsLoaded_loadImage i highRes rj st fired :
  drawsLoaded innerWidth innerHeight (st, fired) ->
  drawsLoaded innerWidth innerHeight (fst (loadImage o i highRes rj st), fired) /\
  taskOK (fst (loadImage o i highRes rj st)) fired (DrawThen (snd (loadImage o i highRes rj st)) i).
Proof.
  intros H. destruct (cache highRes st !! i) as [h|] eqn:E.
  - rewrite (loadImage_cached o _ _ _ _ _ E). cbn [fst snd]. split.
    + apply drawsLoaded_tell; [exact I | exact H].
    + destruct rj; [exact I|]. cbn. destruct H as ((_ & _ & _ & Hc) & _).
      destruct (Hc _ _ _ E) as (b & size & _ & _ & Hf).
      split; [exists highRes; change (is_Some (cache highRes st !! i)); rewrite E; eauto | eauto].
  - rewrite (loadImage_uncached o _ _ _ _ E). cbn [fst snd]. split.
    + eapply drawsLoaded_grows; [| | |apply (drawsLoaded_tell (LoadImage i highRes rj)); [exact I | exact H]];
        [|reflexivity|reflexivity].
      split; [reflexivity|]. split; [reflexivity|]. eexists. split; [reflexivity|].
      intros [|k] e Hk; [|discriminate]. injection Hk as <-. cbn. lia.
    + cbn. exists (createImageBase o i highRes st), highRes. split; [|reflexivity].
      rewrite lookup_app_r by lia. rewrite Nat.sub_diag. reflexivity.
Qed.

Lemma drawsLoaded_loadEach fuel fired : forall i ub st ps,
  drawsLoaded innerWidth innerHeight (st, fired) ->
  drawsLoaded innerWidth innerHeight (fst (loadEach o fuel i ub st ps), fired).
Proof.
  induction fuel as [|fuel IH]; intros i ub st ps H; cbn [loadEach]; [exact H|].
  destruct (Math.ltb (inject_Z i) ub); [|exact H].
  destruct (drawsLoaded_loadImage i false false st fired H) as [H1 _].
  destruct (loadImage o i false false st) as [st1 p]. apply IH, H1.
Qed.

Lemma drawsLoaded_drawOnScreenImage highRes st fired :
  drawsLoaded innerWidth innerHeight (st, fired) ->
  drawsLoaded innerWidth innerHeight (fst (drawOnScreenImage o windowHeight highRes st), fired).
Proof.
  intros H. unfold drawOnScreenImage.
  set (idx := getRequestedImageIndex _ _ _ _).
  destruct (drawsLoaded_loadImage idx highRes false st fired H) as [H1 H2].
  destruct (loadImage o idx highRes false st) as [st1 p]. cbn [fst snd] in *.
  apply drawsLoaded_spawn; assumption.
Qed.

Lemma drawsLoaded_intervalWhile n st fired :
  drawsLoaded innerWidth innerHeight (st, fired) ->
  drawsLoaded innerWidth innerHeight (intervalWhile o n st, fired).
Proof.
  intros H. unfold intervalWhile.
  destruct ((n >? 0) && (latestIntervalLoadedImage st <? numberOfImages o - 1)); [|exact H].
  set (st0 := with_latestIntervalLoadedImage _ st).
  destruct (drawsLoaded_loadImage (latestIntervalLoadedImage st0) false true st0 fired H)
    as [H1 _].
  destruct (loadImage o _ false true st0) as [st1 p]. cbn [fst] in H1.
  apply drawsLoaded_spawn; [exact I | exact H1].
Qed.

Lemma drawsLoaded_forwardLoad_resume i st fired :
  drawsLoaded innerWidth innerHeight (st, fired) ->
  drawsLoaded innerWidth innerHeight (forwardLoad_resume o i st, fired).
Proof.
  intros H. unfold forwardLoad_resume.
  pose proof (drawsLoaded_loadEach (turns (i + 1) (getForwardLoadingUpperBound o i)) fired
                (i + 1) (getForwardLoadingUpperBound o i) st [] H) as H1.
  destruct (loadEach _ _ _ _ _ _) as [st1 ps]. cbn [fst] in H1.
  apply drawsLoaded_spawn; [exact I | exact H1].
Qed.

Lemma drawsLoaded_run fired t st st' :
  drawsLoaded innerWidth innerHeight (st, fired) -> taskOK st fired t ->
  run o windowHeight innerWidth innerHeight fired t st = Some st' ->
  drawsLoaded innerWidth innerHeight (st', fired).
Proof.
  intros H HT Hr. destruct t; cbn [run] in Hr.
  - destruct (Promise_all fired promises); try discriminate.
    + pose proof (drawsLoaded_drawOnScreenImage true st fired H) as H1.
      unfold setTheaterSize in Hr. destruct (drawOnScreenImage _ _ _ _) as [st1 p'].
      injection Hr as <-. apply drawsLoaded_spawn; [exact I | exact H1].
    + injection Hr as <-. apply drawsLoaded_tell; [exact I | exact H].
  - destruct (status fired p); try discriminate.
    + unfold setIntervalLoad in Hr. cbn in Hr.
      destruct (reduceKeys (loadedImages st)); injection Hr as <-;
        (apply drawsLoaded_tell; [exact I | exact H]).
    + injection Hr as <-. apply drawsLoaded_tell; [exact I | exact H].
  - destruct (status fired p); try discriminate; injection Hr as <-;
      (apply drawsLoaded_tell; [exact I | exact H]).
  - destruct (status fired p); try discriminate; injection Hr as <-;
      [exact H | apply drawsLoaded_tell; [exact I | exact H]].
  - destruct (status fired p) eqn:Es; try discriminate.
    2:{ destruct (value p); injection Hr as <-; (apply drawsLoaded_tell; [exact I | exact H]). }
    destruct p as [h| |n]; try discriminate; cbn in Hr; injection Hr as <-.
    + destruct HT as [Hc (size & Hf)].
      apply drawsLoaded_tell; [exact Hc|].
      apply (drawsLoaded_spawn (ForwardAwait (forwardLoading st) requestedImageIndex));
        [exact I|].
      apply drawsLoaded_tell; [|exact H].
      exists size. split; [exact Hf|]. unfold sizeOf. rewrite Hf. reflexivity.
    + destruct HT as (b & hr & Hn & Hi).
      cbn in Es. destruct (fired !! n) as [[size|]|] eqn:Hf; try discriminate.
      apply drawsLoaded_tell.
      { exists hr. rewrite <- Hi. destruct H as ((_ & _ & Hl & _) & _).
        eapply Hl; eassumption. }
      apply (drawsLoaded_spawn (ForwardAwait (forwardLoading st) requestedImageIndex));
        [exact I|].
      apply drawsLoaded_tell; [|exact H].
      exists size. split; [exact Hf|]. unfold sizeOf. rewrite Hf. reflexivity.
  - destruct (Promise_all fired chain); try discriminate; injection Hr as <-;
      [apply drawsLoaded_forwardLoad_resume, H | apply drawsLoaded_tell; [exact I | exact H]].
  - destruct (Promise_all fired chain); try discriminate; injection Hr as <-;
      [exact H | apply drawsLoaded_tell; [exact I | exact H]].
  - destruct (status fired p); try discriminate; injection Hr as <-;
      [apply drawsLoaded_intervalWhile, H | apply drawsLoaded_tell; [exact I | exact H]].
Qed.

Lemma drawsLoaded_act a s s' :
  drawsLoaded innerWidth innerHeight s ->
  act o windowHeight innerWidth innerHeight a s = Some s' ->
  drawsLoaded innerWidth innerHeight s'.
Proof.
  intros H Ha. destruct (imageEvent a) eqn:Hev.
  { pose proof H as (Hs & Ht & Hl).
    destruct (act_keeps _ _ _ _ _ _ _ Ha) as (K & I & F).
    split; [eapply sound_act; eassumption|].
    assert (Et : tasks (fst s') = tasks (fst s) /\ log (fst s') = log (fst s)).
    { destruct s as [st fired], s' as [st' fired'].
      destruct a; try discriminate; cbn [act] in Ha;
        destruct (imgs st !! node), (fired !! node); try discriminate;
        injection Ha as <- <-; cbn [fst]; [|auto].
      destruct (onload_fields node st) as (-> & -> & _). auto. }
    destruct Et as [-> ->]. split.
    - eapply Forall_impl; [exact Ht|]. intros t. apply taskOK_later; auto.
    - eapply Forall_impl; [exact Hl|]. intros e. apply effectOK_later; auto. }
  destruct s as [st fired], s' as [st' fired'].
  destruct a; try discriminate; cbn [act] in Ha.
  - destruct (tasks st !! i) as [t|] eqn:Et; [|discriminate].
    destruct (run o windowHeight innerWidth innerHeight fired t _) as [st1|] eqn:E;
      [|discriminate].
    injection Ha as <- <-. destruct H as (Hs & Ht & Hl). cbn [fst snd] in Ht, Hl.
    eapply drawsLoaded_run; [| |exact E].
    + split; [exact Hs|]. split; [|exact Hl]. cbn [fst snd tasks with_tasks].
      rewrite Forall_forall in Ht. apply Forall_forall. intros x Hx. apply Ht.
      rewrite delete_take_drop in Hx. apply elem_of_app in Hx.
      rewrite <- (take_drop i (tasks st)). apply elem_of_app.
      destruct Hx as [Hx|Hx]; [left; exact Hx|]. right.
      rewrite <- (take_drop 1 (drop i (tasks st))), drop_drop. apply elem_of_app. right.
      replace (i + 1)%nat with (S i) by lia. exact Hx.
    + rewrite Forall_forall in Ht. apply Ht. eapply list_elem_of_lookup_2, Et.
  - cbn in Ha. destruct (listening st); injection Ha as <- <-.
    + unfold onscroll. apply drawsLoaded_drawOnScreenImage. exact H.
    + exact H.
  - destruct (listening st); [|discriminate]. injection Ha as <- <-.
    unfold onresize, setTheaterSize.
    pose proof (drawsLoaded_drawOnScreenImage false st fired H) as H1.
    destruct (drawOnScreenImage _ _ _ _) as [st1 p]. apply drawsLoaded_spawn; [exact I | exact H1].
  - destruct (HDTimerId st); [|discriminate]. injection Ha as <- <-.
    unfold onHDTimer.
    pose proof (drawsLoaded_drawOnScreenImage true (with_HDTimerId false st) fired H) as H1.
    destruct (drawOnScreenImage _ _ _ _) as [st1 p]. apply drawsLoaded_spawn; [exact I | exact H1].
  - destruct (intervalId st); [|discriminate]. injection Ha as <- <-.
    unfold intervalCallback.
    destruct (latestIntervalLoadedImage st =? numberOfImages o - 1); [exact H|].
    destruct (negb (isFowardLoading st)); [apply drawsLoaded_intervalWhile, H | exact H].
Qed.

Lemma drawsLoaded_exec actions : forall s s',
  drawsLoaded innerWidth innerHeight s ->
  exec o windowHeight innerWidth innerHeight actions s = Some s' ->
  drawsLoaded innerWidth innerHeight s'.
Proof.
  induction actions as [|a actions IH]; intros s s' Hs He; cbn in He.
  - injection He as <-. exact Hs.
  - destruct (act o windowHeight innerWidth innerHeight a s) as [s1|] eqn:Ea; [|discriminate].
    eapply IH; [|exact He]. eapply drawsLoaded_act; eassumption.
Qed.

Lemma drawsLoaded_constructor scrollTop :
  drawsLoaded innerWidth innerHeight (constructor o scrollTop, ∅).
Proof.
  assert (H0 : drawsLoaded innerWidth innerHeight (initial scrollTop, ∅)).
  { split; [|split; constructor].
    split; [|split; [|split]].
    - intros n [x Hx]. rewrite lookup_empty in Hx. discriminate.
    - intros n e Hn. discriminate.
    - intros n b hr size Hn. discriminate.
    - intros [|] i h Hh; cbn in Hh; rewrite lookup_empty in Hh; discriminate. }
  unfold constructor, preloader.
  set (ub := Math.toQ (Math.mul (Math.ofZ (numberOfImages o))
                       (Math.ofQ (preLoadingPercentage o)))).
  pose proof (drawsLoaded_loadEach (turns 0 ub) ∅ 0 ub (initial scrollTop) [] H0) as H.
  destruct (loadEach _ _ _ _ _ _) as [st ps]. cbn [fst] in H.
  apply drawsLoaded_spawn; [exact I | exact H].
Qed.

End Draws.

(** X14: on every page after the constructor, whatever was drawn on the
    canvas was drawn from an image that had loaded, with the size it loaded
    with, and [onFrameUpdated] has only been called for a frame that is in a
    cache. *)
Theorem only_loaded_frames_are_drawn (o : FrameByFrameOption) (windowHeight : Q)
    (innerWidth innerHeight : Z) (scrollTop : Q) (actions : list Action)
    (st : FrameByFrame) (fired : Fired) :
  exec o windowHeight innerWidth innerHeight actions (constructor o scrollTop, ∅)
  = Some (st, fired) ->
  (forall image d, CanvasDraw image d ∈ log st ->
     exists width height, fired !! image = Some (Some (width, height)) /\
                          d = drawOnCanvas innerWidth innerHeight (Some (width, height))) /\
  (forall i, FrameUpdated i ∈ log st ->
     is_Some (loadedImages st !! i) \/ is_Some (loadedHighResImages st !! i)).
Proof.
  intros He.
  destruct (drawsLoaded_exec o windowHeight innerWidth innerHeight actions _ _
              (drawsLoaded_constructor o innerWidth innerHeight scrollTop) He) as (_ & _ & Hl).
  cbn [fst snd] in Hl. rewrite Forall_forall in Hl. split.
  - intros image d Hin. destruct (Hl _ Hin) as ([w h] & Hf & Hd). eauto.
  - intros i Hin. destruct (Hl _ Hin) as ([|] & Hc); [right | left]; exact Hc.
Qed.

Lemma only_loaded_frames_are_drawn_witness :
  exists st fired,
    examplePage (readyActions ++ [Scroll (60 # 1); Continue 0]) = Some (st, fired) /\
    (FrameUpdated 2 ∈ log st ->
     is_Some (loadedImages st !! 2) \/ is_Some (loadedHighResImages st !! 2)).
Proof.
  destruct (examplePage (readyActions ++ [Scroll (60 # 1); Continue 0]))
    as [[st fired]|] eqn:E; [|vm_compute in E; discriminate].
  exists st, fired. split; [reflexivity|].
  apply (only_loaded_frames_are_drawn exampleOptions (600 # 1) 800 400 0 _ st fired E).
Defined.




